(** * ClientEngine: the client side of the step-synchronisation loop

    A shallow embedding of [src/ClientEngine.js].  The engine object and the
    fields of the game engine it reads and writes become one record; every
    method becomes a function from engine state to engine state.  Calls into
    collaborators that are not part of the file (the socket, the game engine's
    event emitter, [processInput], the trace) are recorded, in call order, in
    two logs carried by the state, so that "what was sent" and "what was
    applied, and when" can be read back from a run. *)

From Stdlib Require Import ZArith List String Bool Arith Lia Sorted.
Import ListNotations.
Open Scope string_scope.
Open Scope list_scope.
Open Scope Z_scope.

(** ** JavaScript numbers, as far as the engine uses them *)

(** [playerId], [messageIndex] and [serverStep] hold either nothing yet
    ([undefined]), [NaN], or a number; [JNum z] is the number (or, for an
    identifier, the string of digits) whose value is the integer [z]. *)
Inductive JsNum : Type :=
| JUndefined
| JNaN
| JNum (z : Z).

(** [if (v)]: [undefined], [NaN] and [0] are falsy. *)
Definition truthy (v : JsNum) : bool :=
  match v with
  | JNum z => negb (z =? 0)
  | _ => false
  end.

(** JavaScript numbers are IEEE doubles.  [round53 z] is the double nearest
    to the integer [z], ties to the even significand: what an operation on
    doubles returns when its exact result is [z], and what a string of
    digits converts to.  Integers below 2^53 in magnitude are doubles
    themselves; above, 53 significant bits are kept.  (From 2^1024 on a
    double is [Infinity]; such magnitudes are outside this model.) *)
Definition round53 (z : Z) : Z :=
  let a := Z.abs z in
  if a <? 2 ^ 53 then z
  else
    let e := Z.log2 a - 52 in
    let q := a / 2 ^ e in
    let r := a mod 2 ^ e in
    let half := 2 ^ (e - 1) in
    let q' := if r <? half then q
              else if half <? r then q + 1
              else if Z.even q then q else q + 1 in
    Z.sgn z * (q' * 2 ^ e).

(** [Number(v)] *)
Definition Number (v : JsNum) : JsNum :=
  match v with
  | JUndefined => JNaN
  | JNaN => JNaN
  | JNum z => JNum (round53 z)
  end.

(** [v * k], for a number [v] and an integer constant [k] *)
Definition js_mul (v : JsNum) (k : Z) : JsNum :=
  match v with
  | JNum z => JNum (round53 (z * k))
  | _ => JNaN
  end.

(** [v++] (the value left in the variable) *)
Definition js_incr (v : JsNum) : JsNum :=
  match v with
  | JNum z => JNum (round53 (z + 1))
  | _ => JNaN
  end.

(** ** Data *)

Module SyncEvent.
(** One event of a deserialised world update; [stepCount] is optional. *)
Record t : Type := mk { body : string; stepCount : option Z }.
End SyncEvent.

(** What [networkTransmitter.deserializePayload] returns for a payload; the
    inbound queue is modelled as holding payloads in this form. *)
Record Payload : Type := { events : list SyncEvent.t }.

Module InputData.
Record t : Type := mk {
  messageIndex : JsNum;
  step : Z;
  input : string;
  options : option string
}.
End InputData.

Module Message.
Record t : Type := mk { command : string; data : InputData.t }.
End Message.

(** The two arguments of [sendInput]. *)
Record UserInput : Type := { ui_input : string; ui_options : option string }.

(** Calls made on the game engine and its trace, in call order. *)
Inductive GameEvent : Type :=
| EmitPreStep
| EmitPostStep
| EmitSyncReceived (syncEvents : list SyncEvent.t) (stepCount : Z)
| EmitPreInput (d : InputData.t)
| ProcessInput (d : InputData.t) (playerId : JsNum)
| EmitPostInput (d : InputData.t)
| TraceUserInput (d : InputData.t)
| TraceWarnAhead
| TraceWarnBehind
| GameStep.

Definition STEP_DRIFT_THRESHOLD : Z := 10.

Record ClientEngine : Type := mkEngine {
  (* gameEngine *)
  passive : bool;
  stepCount : Z;                  (* gameEngine.world.stepCount *)
  serverStep : JsNum;             (* gameEngine.serverStep *)
  traceStep : Z;                  (* gameEngine.trace.setStep *)
  (* this *)
  playerId : JsNum;
  messageIndex : JsNum;
  skipOneStep : bool;             (* only ever tested with [=== true] *)
  doubleStep : bool;
  inboundMessages : list Payload;
  outboundMessages : list Message.t;
  delayedInputs : option (list (list Message.t));
  (* effects *)
  socketLog : list (string * InputData.t);   (* socket.emit(command, data) *)
  gameLog : list GameEvent
}.

Definition set_stepCount (v : Z) (s : ClientEngine) : ClientEngine :=
  mkEngine (passive s) v (serverStep s) (traceStep s) (playerId s)
    (messageIndex s) (skipOneStep s) (doubleStep s) (inboundMessages s)
    (outboundMessages s) (delayedInputs s) (socketLog s) (gameLog s).

Definition set_serverStep (v : JsNum) (s : ClientEngine) : ClientEngine :=
  mkEngine (passive s) (stepCount s) v (traceStep s) (playerId s)
    (messageIndex s) (skipOneStep s) (doubleStep s) (inboundMessages s)
    (outboundMessages s) (delayedInputs s) (socketLog s) (gameLog s).

Definition set_traceStep (v : Z) (s : ClientEngine) : ClientEngine :=
  mkEngine (passive s) (stepCount s) (serverStep s) v (playerId s)
    (messageIndex s) (skipOneStep s) (doubleStep s) (inboundMessages s)
    (outboundMessages s) (delayedInputs s) (socketLog s) (gameLog s).

Definition set_playerId (v : JsNum) (s : ClientEngine) : ClientEngine :=
  mkEngine (passive s) (stepCount s) (serverStep s) (traceStep s) v
    (messageIndex s) (skipOneStep s) (doubleStep s) (inboundMessages s)
    (outboundMessages s) (delayedInputs s) (socketLog s) (gameLog s).

Definition set_messageIndex (v : JsNum) (s : ClientEngine) : ClientEngine :=
  mkEngine (passive s) (stepCount s) (serverStep s) (traceStep s) (playerId s)
    v (skipOneStep s) (doubleStep s) (inboundMessages s)
    (outboundMessages s) (delayedInputs s) (socketLog s) (gameLog s).

Definition set_skipOneStep (v : bool) (s : ClientEngine) : ClientEngine :=
  mkEngine (passive s) (stepCount s) (serverStep s) (traceStep s) (playerId s)
    (messageIndex s) v (doubleStep s) (inboundMessages s)
    (outboundMessages s) (delayedInputs s) (socketLog s) (gameLog s).

Definition set_doubleStep (v : bool) (s : ClientEngine) : ClientEngine :=
  mkEngine (passive s) (stepCount s) (serverStep s) (traceStep s) (playerId s)
    (messageIndex s) (skipOneStep s) v (inboundMessages s)
    (outboundMessages s) (delayedInputs s) (socketLog s) (gameLog s).

Definition set_inboundMessages (v : list Payload) (s : ClientEngine)
  : ClientEngine :=
  mkEngine (passive s) (stepCount s) (serverStep s) (traceStep s) (playerId s)
    (messageIndex s) (skipOneStep s) (doubleStep s) v
    (outboundMessages s) (delayedInputs s) (socketLog s) (gameLog s).

Definition set_outboundMessages (v : list Message.t) (s : ClientEngine)
  : ClientEngine :=
  mkEngine (passive s) (stepCount s) (serverStep s) (traceStep s) (playerId s)
    (messageIndex s) (skipOneStep s) (doubleStep s) (inboundMessages s)
    v (delayedInputs s) (socketLog s) (gameLog s).

Definition set_delayedInputs (v : option (list (list Message.t)))
  (s : ClientEngine) : ClientEngine :=
  mkEngine (passive s) (stepCount s) (serverStep s) (traceStep s) (playerId s)
    (messageIndex s) (skipOneStep s) (doubleStep s) (inboundMessages s)
    (outboundMessages s) v (socketLog s) (gameLog s).

(** [socket.emit(command, data)] *)
Definition socket_emit (c : string) (d : InputData.t) (s : ClientEngine)
  : ClientEngine :=
  mkEngine (passive s) (stepCount s) (serverStep s) (traceStep s) (playerId s)
    (messageIndex s) (skipOneStep s) (doubleStep s) (inboundMessages s)
    (outboundMessages s) (delayedInputs s) (socketLog s ++ [(c, d)]) (gameLog s).

(** A call on the game engine or its trace. *)
Definition game_call (e : GameEvent) (s : ClientEngine) : ClientEngine :=
  mkEngine (passive s) (stepCount s) (serverStep s) (traceStep s) (playerId s)
    (messageIndex s) (skipOneStep s) (doubleStep s) (inboundMessages s)
    (outboundMessages s) (delayedInputs s) (socketLog s) (gameLog s ++ [e]).

(** ** Constructor *)

(** [delayInputCount] is a non-negative integer when given; [0] is falsy, so
    it leaves the engine without a buffer, like an absent option.  The buffer
    gets one empty batch per index [0 .. delayInputCount - 1]. *)
Definition new_delayedInputs (delayInputCount : option nat)
  : option (list (list Message.t)) :=
  match delayInputCount with
  | Some (S n) => Some (repeat [] (S n))
  | _ => None
  end.

(** The engine as the constructor leaves it.  [gamePassive] is the passive
    flag of the game engine passed in.
    Modelled from the spec: the game engine's world is not part of this file;
    a new simulation starts with step count 0 and no server step. *)
Definition constructor (gamePassive : bool) (delayInputCount : option nat)
  : ClientEngine :=
  {| passive := gamePassive;
     stepCount := 0;
     serverStep := JUndefined;
     traceStep := 0;
     playerId := JNaN;
     messageIndex := JUndefined;
     skipOneStep := false;
     doubleStep := false;
     inboundMessages := [];
     outboundMessages := [];
     delayedInputs := new_delayedInputs delayInputCount;
     socketLog := [];
     gameLog := [] |}.

(** [socket.on('playerJoined', ...)] *)
Definition playerJoined (pid : JsNum) (s : ClientEngine) : ClientEngine :=
  let s := set_playerId pid s in
  set_messageIndex (js_mul (Number (playerId s)) 10000) s.

(** [socket.on('worldUpdate', ...)]: [inboundMessages.push(worldData)] *)
Definition worldUpdate (worldData : Payload) (s : ClientEngine)
  : ClientEngine :=
  set_inboundMessages (inboundMessages s ++ [worldData]) s.

(** ** configureSynchronization *)

Record SyncOptions : Type := { sync : string; reflect : bool }.

Record Synchronizer : Type := {
  syncOptions : SyncOptions;
  extrapolateObjectSelector : bool;   (* set to [() => true] *)
  interpolateObjectSelector : bool;
  frameSyncSelector : bool
}.

(** Modelled from the spec: the [Synchronizer] class is not part of this
    file; a new synchronizer keeps the options it is given and has no
    strategy activated until the selector below activates one. *)
Definition new_Synchronizer (o : SyncOptions) : Synchronizer :=
  {| syncOptions := o;
     extrapolateObjectSelector := false;
     interpolateObjectSelector := false;
     frameSyncSelector := false |}.

Definition configureSynchronization (syncOptions0 : SyncOptions)
  : Synchronizer :=
  let syncOptions1 :=
    if String.eqb (sync syncOptions0) "reflect"
    then {| sync := "interpolate"; reflect := true |}
    else syncOptions0 in
  let synchronizer := new_Synchronizer syncOptions1 in
  if String.eqb (sync syncOptions1) "extrapolate" then
    {| syncOptions := syncOptions synchronizer;
       extrapolateObjectSelector := true;
       interpolateObjectSelector := interpolateObjectSelector synchronizer;
       frameSyncSelector := frameSyncSelector synchronizer |}
  else if String.eqb (sync syncOptions1) "interpolate" then
    {| syncOptions := syncOptions synchronizer;
       extrapolateObjectSelector := extrapolateObjectSelector synchronizer;
       interpolateObjectSelector := true;
       frameSyncSelector := frameSyncSelector synchronizer |}
  else if String.eqb (sync syncOptions1) "frameSync" then
    {| syncOptions := syncOptions synchronizer;
       extrapolateObjectSelector := extrapolateObjectSelector synchronizer;
       interpolateObjectSelector := interpolateObjectSelector synchronizer;
       frameSyncSelector := true |}
  else synchronizer.

(** ** The engine's methods *)

(** [Array.prototype.pop]: the last element and what is left. *)
Definition pop {A : Type} (l : list A) : option (list A * A) :=
  match rev l with
  | [] => None
  | x :: r => Some (rev r, x)
  end.

(** [delayedInputs[delayedInputs.length - 1].push(message)].  On an empty
    buffer the indexed batch is [undefined] and JavaScript throws; the engine
    never holds an empty buffer ([delayedInputs_never_empty] below), and the
    model leaves the empty buffer as it is. *)
Fixpoint push_last (buf : list (list Message.t)) (message : Message.t)
  : list (list Message.t) :=
  match buf with
  | [] => []
  | [b] => [b ++ [message]]
  | b :: rest => b :: push_last rest message
  end.

(** The reducer of [syncEvents.reduce(..., 0)]:
    [el.stepCount ? Math.max(max, el.stepCount) : max]. *)
Definition maxReducer (max : Z) (el : SyncEvent.t) : Z :=
  match SyncEvent.stepCount el with
  | Some n => if n =? 0 then max else Z.max max n
  | None => max
  end.

Definition maxStepCount (syncEvents : list SyncEvent.t) : Z :=
  fold_left maxReducer syncEvents 0.

(** Modelled from the spec: [gameEngine.step] is not part of this file; it
    advances the simulation by exactly one logical step. *)
Definition gameEngine_step (s : ClientEngine) : ClientEngine :=
  let s := game_call GameStep s in
  set_stepCount (stepCount s + 1) s.

(** What the listeners of the engine's hooks do during one call of [step]:
    the inputs issued from ['client.preStep'] listeners, the inputs issued
    while the k-th outbound message is being emitted on the socket, and the
    inputs issued from ['client.postStep'] listeners. *)
Record TickHooks : Type := {
  preStep : list UserInput;
  onSocketEmit : list (list UserInput);
  postStep : list UserInput
}.

Definition noHooks : TickHooks :=
  {| preStep := []; onSocketEmit := []; postStep := [] |}.

(** ** Observations on a run *)

(** The data of the inputs issued, in issuance order ([sendInput] records
    each on the trace when it builds the message). *)
Fixpoint issuedOf (log : list GameEvent) : list InputData.t :=
  match log with
  | [] => []
  | TraceUserInput d :: log' => d :: issuedOf log'
  | _ :: log' => issuedOf log'
  end.

(** The ['client.syncReceived'] notifications, in emission order. *)
Fixpoint syncsOf (log : list GameEvent) : list (list SyncEvent.t * Z) :=
  match log with
  | [] => []
  | EmitSyncReceived evs n :: log' => (evs, n) :: syncsOf log'
  | _ :: log' => syncsOf log'
  end.

(** The number of simulation steps performed. *)
Fixpoint gameSteps (log : list GameEvent) : nat :=
  match log with
  | [] => O
  | GameStep :: log' => S (gameSteps log')
  | _ :: log' => gameSteps log'
  end.

(** The inputs applied to the local simulation, each with the tick at which
    [processInput] received it: the number of simulation steps performed
    before the call, counting from [ticks]. *)
Fixpoint appliedFrom (ticks : nat) (log : list GameEvent)
  : list (nat * InputData.t) :=
  match log with
  | [] => []
  | GameStep :: log' => appliedFrom (S ticks) log'
  | ProcessInput d _ :: log' => (ticks, d) :: appliedFrom ticks log'
  | _ :: log' => appliedFrom ticks log'
  end.

Definition appliedOf (log : list GameEvent) : list (nat * InputData.t) :=
  appliedFrom O log.

(** A queued message as it goes on the wire. *)
Definition wire (m : Message.t) : string * InputData.t :=
  (Message.command m, Message.data m).

(** Everything sent so far followed by everything still queued. *)
Definition stream (s : ClientEngine) : list (string * InputData.t) :=
  socketLog s ++ map wire (outboundMessages s).

(** The sequence numbers of [n] consecutive inputs, the first taking [v]. *)
Fixpoint indexSeq (v : JsNum) (n : nat) : list JsNum :=
  match n with
  | O => []
  | S n' => v :: indexSeq (js_incr v) n'
  end.

(** The events of a payload that carry a step count, as the spec words it:
    the maximum over those, and 0 when there is none. *)
Fixpoint carried (syncEvents : list SyncEvent.t) : list Z :=
  match syncEvents with
  | [] => []
  | el :: rest =>
      match SyncEvent.stepCount el with
      | Some n => n :: carried rest
      | None => carried rest
      end
  end.

Definition spec_maxStepCount (syncEvents : list SyncEvent.t) : Z :=
  match carried syncEvents with
  | [] => 0
  | n :: ns => fold_left Z.max ns n
  end.

(** The last authoritative step the engine knows of, if any: the drift check
    takes a falsy [serverStep] for "none received". *)
Definition authoritative (s : ClientEngine) : option Z :=
  match serverStep s with
  | JNum a => if a =? 0 then None else Some a
  | _ => None
  end.

(** ** Sample collaborators and inputs *)

(** A sync listener that takes the step count of each sync as the server
    step. *)
Definition latestStep (syncEvents : list SyncEvent.t) (max : Z)
  (old : JsNum) : JsNum := JNum max.

Definition up : UserInput := {| ui_input := "up"; ui_options := None |}.

Definition I1 : UserInput := {| ui_input := "I1"; ui_options := None |}.

(** An engine ten steps or more ahead of the server: local step 25,
    authoritative step 5. *)
Definition ahead : ClientEngine :=
  set_serverStep (JNum 5) (set_stepCount 25 (constructor false None)).

(** An engine behind the server: local step 5, authoritative step 25. *)
Definition behind : ClientEngine :=
  set_serverStep (JNum 25) (set_stepCount 5 (constructor false None)).

Definition scenario4 : list SyncEvent.t :=
  [SyncEvent.mk "a" (Some 7); SyncEvent.mk "b" None; SyncEvent.mk "c" (Some 4)].

Section Engine.

(** The listener of ['client.syncReceived'] belongs to the synchronisation
    strategy, which is not part of this file.  Of the state modelled here
    it owns [gameEngine.serverStep], which this file only reads: given the
    events and the computed step count it yields the new server step. *)
Variable onSyncReceived : list SyncEvent.t -> Z -> JsNum -> JsNum.

Definition doInputLocal (message : Message.t) (s : ClientEngine)
  : ClientEngine :=
  if passive s then s
  else
    let s := game_call (EmitPreInput (Message.data message)) s in
    let s := game_call (ProcessInput (Message.data message) (playerId s)) s in
    game_call (EmitPostInput (Message.data message)) s.

(** [delayed.forEach(that.doInputLocal.bind(that))] *)
Definition forEach_doInputLocal (delayed : list Message.t)
  (s : ClientEngine) : ClientEngine :=
  fold_left (fun st m => doInputLocal m st) delayed s.

Definition applyDelayedInputs (s : ClientEngine) : ClientEngine :=
  match delayedInputs s with
  | None => s
  | Some buf =>
      let s := set_delayedInputs (Some (tl buf)) s in
      let s :=
        match hd_error buf with
        | Some delayed => forEach_doInputLocal delayed s
        | None => s
        end in
      set_delayedInputs (Some (tl buf ++ [[]])) s
  end.

Definition sendInput (u : UserInput) (s : ClientEngine) : ClientEngine :=
  let message :=
    Message.mk "move"
      (InputData.mk (messageIndex s) (stepCount s)
         (ui_input u) (ui_options u)) in
  let s := game_call (TraceUserInput (Message.data message)) s in
  let s :=
    match delayedInputs s with
    | Some buf => set_delayedInputs (Some (push_last buf message)) s
    | None => doInputLocal message s
    end in
  let s := set_outboundMessages (outboundMessages s ++ [message]) s in
  set_messageIndex (js_incr (messageIndex s)) s.

(** The inputs a hook's listeners issue, one call after the other. *)
Definition sendInputs (us : list UserInput) (s : ClientEngine)
  : ClientEngine :=
  fold_left (fun st u => sendInput u st) us s.

Definition handleInboundMessage (syncData : Payload) (s : ClientEngine)
  : ClientEngine :=
  let syncEvents := events syncData in
  let max := maxStepCount syncEvents in
  let s := game_call (EmitSyncReceived syncEvents max) s in
  let s := set_serverStep (onSyncReceived syncEvents max (serverStep s)) s in
  if max >? stepCount s then set_stepCount max s else s.

(** [while (inboundMessages.length > 0) handleInboundMessage(inboundMessages.pop())] *)
Fixpoint inboundLoop (fuel : nat) (s : ClientEngine) : ClientEngine :=
  match fuel with
  | O => s
  | S fuel' =>
      match pop (inboundMessages s) with
      | None => s
      | Some (rest, syncData) =>
          inboundLoop fuel'
            (handleInboundMessage syncData (set_inboundMessages rest s))
      end
  end.

Definition drainInbound (s : ClientEngine) : ClientEngine :=
  inboundLoop (List.length (inboundMessages s)) s.

(** The drift check of [step], for a threshold [T]. *)
Definition driftCheckT (T : Z) (s : ClientEngine) : ClientEngine :=
  if truthy (serverStep s) then
    match serverStep s with
    | JNum server =>
        if stepCount s >? server + T then
          set_skipOneStep true (game_call TraceWarnAhead s)
        else if server >? stepCount s + T then
          set_doubleStep true (game_call TraceWarnBehind s)
        else s
    | _ => s
    end
  else s.

Definition driftCheck : ClientEngine -> ClientEngine :=
  driftCheckT STEP_DRIFT_THRESHOLD.

(** [for (x = 0; x < outboundMessages.length; x++) socket.emit(...)]: the
    length is read again on every round, so a message queued while an
    earlier one is being emitted is reached by the same loop.  [None] when
    the fuel runs out before the loop ends. *)
Fixpoint outboundLoop (fuel : nat) (x : nat)
  (listeners : list (list UserInput)) (s : ClientEngine)
  : option ClientEngine :=
  match nth_error (outboundMessages s) x with
  | None => Some s
  | Some m =>
      match fuel with
      | O => None
      | S fuel' =>
          let s := socket_emit (Message.command m) (Message.data m) s in
          let s := sendInputs (hd [] listeners) s in
          outboundLoop fuel' (S x) (tl listeners) s
      end
  end.

Definition handleOutboundInput (listeners : list (list UserInput))
  (s : ClientEngine) : ClientEngine :=
  let fuel := (List.length (outboundMessages s) + List.length (List.concat listeners))%nat in
  match outboundLoop fuel 0 listeners s with
  | Some s => set_outboundMessages [] s
  | None => s
  end.

(** One call of [step].  The listeners of the two hooks issue their inputs
    right after the hook is emitted.  The closing emission of the rotated
    trace on the socket is diagnostics only and is left out. *)
Definition step (hooks : TickHooks) (s : ClientEngine) : ClientEngine :=
  let s := set_traceStep (stepCount s + 1) s in
  if skipOneStep s then set_skipOneStep false s
  else
    let s := sendInputs (preStep hooks) (game_call EmitPreStep s) in
    let s := drainInbound s in
    let s := driftCheck s in
    let s := handleOutboundInput (onSocketEmit hooks) s in
    let s := applyDelayedInputs s in
    let s := gameEngine_step s in
    sendInputs (postStep hooks) (game_call EmitPostStep s).

(** What can happen to the engine, from outside. *)
Inductive Event : Type :=
| PlayerJoined (pid : JsNum)
| WorldUpdate (worldData : Payload)
| SendInput (u : UserInput)
| Step (hooks : TickHooks).

Definition exec (e : Event) (s : ClientEngine) : ClientEngine :=
  match e with
  | PlayerJoined pid => playerJoined pid s
  | WorldUpdate worldData => worldUpdate worldData s
  | SendInput u => sendInput u s
  | Step hooks => step hooks s
  end.

Definition run (es : list Event) (s : ClientEngine) : ClientEngine :=
  fold_left (fun st e => exec e st) es s.

(** [n] calls of [step] during which no listener issues an input. *)
Definition idle (n : nat) : list Event := repeat (Step noHooks) n.

(** The state in which [step] reaches its drift check, when the tick is not
    skipped. *)
Definition atDriftCheck (hooks : TickHooks) (s : ClientEngine) : ClientEngine :=
  drainInbound
    (sendInputs (preStep hooks)
       (game_call EmitPreStep (set_traceStep (stepCount s + 1) s))).

(** The fields no input issuance, flush or local application touches. *)
Definition quiet (s s' : ClientEngine) : Prop :=
  passive s' = passive s /\ stepCount s' = stepCount s
  /\ serverStep s' = serverStep s /\ playerId s' = playerId s
  /\ skipOneStep s' = skipOneStep s /\ doubleStep s' = doubleStep s
  /\ inboundMessages s' = inboundMessages s
  /\ syncsOf (gameLog s') = syncsOf (gameLog s)
  /\ gameSteps (gameLog s') = gameSteps (gameLog s).

(** All of [ps] handled, first to last. *)
Definition handleAll (ps : list Payload) (s : ClientEngine) : ClientEngine :=
  fold_left (fun st p => handleInboundMessage p st) ps s.

Ltac unfold_updates :=
  unfold set_stepCount, set_serverStep, set_traceStep, set_playerId,
    set_messageIndex, set_skipOneStep, set_doubleStep, set_inboundMessages,
    set_outboundMessages, set_delayedInputs, socket_emit, game_call in *.

(** A flag that was not set before and is set after. *)
Definition raised (before after : bool) : bool := negb before && after.

(** The sync modes the configuration recognises. *)
Definition recognizedModes : list string :=
  ["extrapolate"; "interpolate"; "frameSync"; "reflect"].

(** How many of the three selectors a synchronizer has activated. *)
Definition activeSelectors (sy : Synchronizer) : nat :=
  ((if extrapolateObjectSelector sy then 1 else 0)
   + (if interpolateObjectSelector sy then 1 else 0)
   + (if frameSyncSelector sy then 1 else 0))%nat.

(** The wire form of an issued input: [sendInput] tags every message
    ['move']. *)
Definition move (d : InputData.t) : string * InputData.t := ("move", d).

(** [s'] differs from [s] in nothing that concerns issuance or sending. *)
Definition silent (s s' : ClientEngine) : Prop :=
  issuedOf (gameLog s') = issuedOf (gameLog s)
  /\ socketLog s' = socketLog s
  /\ outboundMessages s' = outboundMessages s
  /\ messageIndex s' = messageIndex s.

(** Between [s] and [s'] the inputs with data [new] were issued, in this
    order, and queued; nothing was sent. *)
Definition issues (new : list InputData.t) (s s' : ClientEngine) : Prop :=
  issuedOf (gameLog s') = issuedOf (gameLog s) ++ new
  /\ socketLog s' = socketLog s
  /\ outboundMessages s'
     = outboundMessages s ++ map (Message.mk "move") new
  /\ map InputData.messageIndex new
     = indexSeq (messageIndex s) (List.length new)
  /\ messageIndex s' = Nat.iter (List.length new) js_incr (messageIndex s).

(** Between [s] and [s'] the inputs with data [new] were issued, in this
    order; what is sent or queued grew by exactly these. *)
Definition sent (new : list InputData.t) (s s' : ClientEngine) : Prop :=
  issuedOf (gameLog s') = issuedOf (gameLog s) ++ new
  /\ stream s' = stream s ++ map move new
  /\ map InputData.messageIndex new
     = indexSeq (messageIndex s) (List.length new)
  /\ messageIndex s' = Nat.iter (List.length new) js_incr (messageIndex s).

(** No player (re)joins during the events. *)
Definition noJoin (es : list Event) : bool :=
  forallb (fun e => match e with PlayerJoined _ => false | _ => true end) es.

(** The calls [doInputLocal] makes for the messages of a batch, for an
    engine that is not passive. *)
Definition applyLog (pid : JsNum) (batch : list Message.t) : list GameEvent :=
  flat_map
    (fun m => [EmitPreInput (Message.data m);
               ProcessInput (Message.data m) pid;
               EmitPostInput (Message.data m)])
    batch.

(** The delay buffer after [applyDelayedInputs]. *)
Definition rotate (buf : list (list Message.t)) : list (list Message.t) :=
  tl buf ++ [[]].

Fixpoint rotateN (k : nat) (buf : list (list Message.t))
  : list (list Message.t) :=
  match k with
  | O => buf
  | S k' => rotateN k' (rotate buf)
  end.

(** The calls on the game engine during [k] quiet ticks of an engine whose
    delay buffer is [buf]. *)
Fixpoint idleLog (pid : JsNum) (k : nat) (buf : list (list Message.t))
  : list GameEvent :=
  match k with
  | O => []
  | S k' =>
      [EmitPreStep] ++ applyLog pid (hd [] buf) ++ [GameStep; EmitPostStep]
      ++ idleLog pid k' (rotate buf)
  end.

(** An engine that is not passive, is not about to skip, has nothing
    pending inbound and knows no authoritative step. *)
Definition calm (s : ClientEngine) : Prop :=
  passive s = false /\ skipOneStep s = false
  /\ inboundMessages s = [] /\ authoritative s = None.

(** The delay buffer, when there is one, has at least one batch. *)
Definition bufferOk (s : ClientEngine) : Prop := delayedInputs s <> Some [].

(** ** Further observations and invariants *)

(** The inputs issued, each with the tick at which [sendInput] was called:
    the number of simulation steps performed before the call, counting from
    [ticks]. *)
Fixpoint issuedFrom (ticks : nat) (log : list GameEvent)
  : list (nat * InputData.t) :=
  match log with
  | [] => []
  | GameStep :: log' => issuedFrom (S ticks) log'
  | TraceUserInput d :: log' => (ticks, d) :: issuedFrom ticks log'
  | _ :: log' => issuedFrom ticks log'
  end.

Definition issuedAtOf (log : list GameEvent) : list (nat * InputData.t) :=
  issuedFrom O log.

(** The calls [doInputLocal] makes, in call order. *)
Fixpoint localCalls (log : list GameEvent) : list GameEvent :=
  match log with
  | [] => []
  | EmitPreInput d :: log' => EmitPreInput d :: localCalls log'
  | ProcessInput d pid :: log' => ProcessInput d pid :: localCalls log'
  | EmitPostInput d :: log' => EmitPostInput d :: localCalls log'
  | _ :: log' => localCalls log'
  end.



(** [s'] comes from [s] by something that issues no input, applies none and
    performs no simulation step, and leaves the delay buffer alone. *)
Definition neutral (s s' : ClientEngine) : Prop :=
  passive s' = passive s
  /\ delayedInputs s' = delayedInputs s
  /\ stepCount s <= stepCount s'
  /\ gameSteps (gameLog s') = gameSteps (gameLog s)
  /\ issuedAtOf (gameLog s') = issuedAtOf (gameLog s)
  /\ appliedOf (gameLog s') = appliedOf (gameLog s)
  /\ localCalls (gameLog s') = localCalls (gameLog s).

(** The part of a tick between the flush and the post-step hook. *)
Definition tickCore (s : ClientEngine) : ClientEngine :=
  gameEngine_step (applyDelayedInputs s).



(** A passive engine that has made no local call. *)
Definition spectator (s : ClientEngine) : Prop :=
  passive s = true /\ localCalls (gameLog s) = [].

(** The delay buffer has the depth it was built with ([None]: no buffer). *)
Definition depthIs (depth : option nat) (s : ClientEngine) : Prop :=
  option_map (@List.length (list Message.t)) (delayedInputs s) = depth.

(** The step stamps of the inputs issued so far are in non-decreasing order
    and none is ahead of the local step count. *)
Definition stamped (s : ClientEngine) : Prop :=
  exists stamps,
    map InputData.step (issuedOf (gameLog s)) = stamps
    /\ LocallySorted Z.le stamps
    /\ Forall (fun z => z <= stepCount s) stamps.



(** The inputs handed to [processInput], each with the player identity it
    was attributed to, in call order. *)
Fixpoint processedOf (log : list GameEvent) : list (InputData.t * JsNum) :=
  match log with
  | [] => []
  | ProcessInput d pid :: log' => (d, pid) :: processedOf log'
  | _ :: log' => processedOf log'
  end.

(** The three calls of [doInputLocal] for each of a list of applications. *)
Definition bracketed (l : list (InputData.t * JsNum)) : list GameEvent :=
  flat_map
    (fun a => [EmitPreInput (fst a); ProcessInput (fst a) (snd a);
               EmitPostInput (fst a)])
    l.

(** The local calls come in whole brackets. *)
Definition wellBracketed (s : ClientEngine) : Prop :=
  localCalls (gameLog s) = bracketed (processedOf (gameLog s)).

(** * Properties *)

(** ** The step count of an inbound payload *)

Lemma maxReducer_ge (max : Z) (el : SyncEvent.t) : max <= maxReducer max el.
Proof.
  unfold maxReducer.
  destruct (SyncEvent.stepCount el) as [n|]; [|lia].
  destruct (n =? 0); lia.
Qed.

Lemma fold_maxReducer_ge (syncEvents : list SyncEvent.t) :
  forall acc, acc <= fold_left maxReducer syncEvents acc.
Proof.
  induction syncEvents as [|el rest IH]; intros acc; simpl; [lia|].
  specialize (IH (maxReducer acc el)).
  pose proof (maxReducer_ge acc el). lia.
Qed.

Lemma maxStepCount_nonneg (syncEvents : list SyncEvent.t) :
  0 <= maxStepCount syncEvents.
Proof. apply fold_maxReducer_ge. Qed.

Lemma fold_maxReducer_carried (syncEvents : list SyncEvent.t) :
  forall acc,
    0 <= acc ->
    Forall (fun n => 0 <= n) (carried syncEvents) ->
    fold_left maxReducer syncEvents acc
    = fold_left Z.max (carried syncEvents) acc.
Proof.
  induction syncEvents as [|el rest IH]; intros acc Hacc Hall; simpl in *.
  - reflexivity.
  - unfold maxReducer at 2.
    destruct (SyncEvent.stepCount el) as [n|]; simpl.
    + inversion Hall as [|n' ns Hn Hns]; subst.
      destruct (Z.eqb_spec n 0) as [->|Hne].
      * replace (Z.max acc 0) with acc by lia. now apply IH.
      * apply IH; [lia|assumption].
    + now apply IH.
Qed.

Lemma fold_maxReducer_app (l1 l2 : list SyncEvent.t) (acc : Z) :
  fold_left maxReducer (l1 ++ l2) acc
  = fold_left maxReducer l2 (fold_left maxReducer l1 acc).
Proof. apply fold_left_app. Qed.

(** ** Field by field: what each method leaves alone *)

Lemma quiet_refl (s : ClientEngine) : quiet s s.
Proof. unfold quiet; repeat split. Qed.

Lemma quiet_trans (s1 s2 s3 : ClientEngine) :
  quiet s1 s2 -> quiet s2 s3 -> quiet s1 s3.
Proof.
  unfold quiet; intros H12 H23.
  decompose [and] H12; decompose [and] H23.
  repeat split; congruence.
Qed.

Lemma syncsOf_app (l1 l2 : list GameEvent) :
  syncsOf (l1 ++ l2) = syncsOf l1 ++ syncsOf l2.
Proof.
  induction l1 as [|e l1 IH]; simpl; [reflexivity|].
  destruct e; simpl; rewrite ?IH; reflexivity.
Qed.

Lemma gameSteps_app (l1 l2 : list GameEvent) :
  gameSteps (l1 ++ l2) = (gameSteps l1 + gameSteps l2)%nat.
Proof.
  induction l1 as [|e l1 IH]; simpl; [reflexivity|].
  destruct e; simpl; rewrite ?IH; reflexivity.
Qed.

Lemma issuedOf_app (l1 l2 : list GameEvent) :
  issuedOf (l1 ++ l2) = issuedOf l1 ++ issuedOf l2.
Proof.
  induction l1 as [|e l1 IH]; simpl; [reflexivity|].
  destruct e; simpl; rewrite ?IH; reflexivity.
Qed.

Lemma appliedFrom_app (l1 l2 : list GameEvent) :
  forall ticks,
    appliedFrom ticks (l1 ++ l2)
    = appliedFrom ticks l1 ++ appliedFrom (ticks + gameSteps l1) l2.
Proof.
  induction l1 as [|e l1 IH]; intros ticks; simpl.
  - now rewrite Nat.add_0_r.
  - destruct e; simpl; rewrite ?IH; try reflexivity.
    now rewrite Nat.add_succ_r.
Qed.

Create Rewrite HintDb logs.
#[local] Hint Rewrite syncsOf_app gameSteps_app issuedOf_app : logs.

Lemma doInputLocal_quiet (m : Message.t) (s : ClientEngine) :
  quiet s (doInputLocal m s).
Proof.
  unfold quiet, doInputLocal. destruct (passive s) eqn:Hp; unfold_updates; simpl;
    autorewrite with logs; simpl; rewrite ?app_nil_r, ?Nat.add_0_r;
    repeat split; auto.
Qed.

Lemma forEach_doInputLocal_quiet (delayed : list Message.t) :
  forall s, quiet s (forEach_doInputLocal delayed s).
Proof.
  unfold forEach_doInputLocal.
  induction delayed as [|m rest IH]; intros s; simpl.
  - apply quiet_refl.
  - eapply quiet_trans; [apply doInputLocal_quiet | apply IH].
Qed.

Lemma set_delayedInputs_quiet v (s : ClientEngine) :
  quiet s (set_delayedInputs v s).
Proof. unfold quiet; repeat split. Qed.

Lemma set_outboundMessages_quiet v (s : ClientEngine) :
  quiet s (set_outboundMessages v s).
Proof. unfold quiet; repeat split. Qed.

Lemma set_messageIndex_quiet v (s : ClientEngine) :
  quiet s (set_messageIndex v s).
Proof. unfold quiet; repeat split. Qed.

Lemma socket_emit_quiet c d (s : ClientEngine) :
  quiet s (socket_emit c d s).
Proof. unfold quiet; repeat split. Qed.

Lemma applyDelayedInputs_quiet (s : ClientEngine) :
  quiet s (applyDelayedInputs s).
Proof.
  unfold applyDelayedInputs.
  destruct (delayedInputs s) as [buf|]; [|apply quiet_refl].
  eapply quiet_trans; [|apply set_delayedInputs_quiet].
  eapply quiet_trans; [apply set_delayedInputs_quiet|].
  destruct (hd_error buf); [apply forEach_doInputLocal_quiet|apply quiet_refl].
Qed.

Lemma sendInput_quiet (u : UserInput) (s : ClientEngine) :
  quiet s (sendInput u s).
Proof.
  unfold sendInput.
  eapply quiet_trans; [|apply set_messageIndex_quiet].
  eapply quiet_trans; [|apply set_outboundMessages_quiet].
  match goal with |- quiet _ (match ?d with _ => _ end) =>
    assert (Hq : quiet s (game_call (TraceUserInput
      (Message.data (Message.mk "move" (InputData.mk (messageIndex s)
         (stepCount s) (ui_input u) (ui_options u))))) s))
  end.
  { unfold quiet; unfold_updates; simpl; autorewrite with logs; simpl;
      rewrite ?app_nil_r, ?Nat.add_0_r; repeat split; auto. }
  eapply quiet_trans; [exact Hq|].
  simpl. destruct (delayedInputs s);
    [apply set_delayedInputs_quiet | apply doInputLocal_quiet].
Qed.

Lemma sendInputs_quiet (us : list UserInput) :
  forall s, quiet s (sendInputs us s).
Proof.
  unfold sendInputs.
  induction us as [|u rest IH]; intros s; simpl.
  - apply quiet_refl.
  - eapply quiet_trans; [apply sendInput_quiet | apply IH].
Qed.

Lemma outboundLoop_quiet (fuel : nat) :
  forall x listeners s s',
    outboundLoop fuel x listeners s = Some s' -> quiet s s'.
Proof.
  induction fuel as [|fuel IH]; intros x listeners s s'; simpl;
    destruct (nth_error (outboundMessages s) x) as [m|];
    intros H; inversion H; subst; try apply quiet_refl.
  eapply quiet_trans; [|eapply IH; eassumption].
  eapply quiet_trans; [apply socket_emit_quiet | apply sendInputs_quiet].
Qed.

Lemma handleOutboundInput_quiet (listeners : list (list UserInput))
  (s : ClientEngine) : quiet s (handleOutboundInput listeners s).
Proof.
  unfold handleOutboundInput.
  destruct (outboundLoop _ 0 listeners s) as [s'|] eqn:Hloop;
    [|apply quiet_refl].
  eapply quiet_trans; [eapply outboundLoop_quiet; eassumption|].
  apply set_outboundMessages_quiet.
Qed.

(** ** The inbound handler and the drain of the inbound queue *)

Lemma handleInboundMessage_stepCount (p : Payload) (s : ClientEngine) :
  stepCount (handleInboundMessage p s)
  = if maxStepCount (events p) >? stepCount s
    then maxStepCount (events p) else stepCount s.
Proof.
  unfold handleInboundMessage; simpl.
  destruct (maxStepCount (events p) >? stepCount s); reflexivity.
Qed.

Lemma handleInboundMessage_inbound (p : Payload) (s : ClientEngine) :
  inboundMessages (handleInboundMessage p s) = inboundMessages s.
Proof.
  unfold handleInboundMessage; simpl.
  destruct (maxStepCount (events p) >? stepCount s); reflexivity.
Qed.

Lemma handleInboundMessage_syncs (p : Payload) (s : ClientEngine) :
  syncsOf (gameLog (handleInboundMessage p s))
  = syncsOf (gameLog s) ++ [(events p, maxStepCount (events p))].
Proof.
  unfold handleInboundMessage; simpl.
  destruct (maxStepCount (events p) >? stepCount s); simpl;
    now rewrite syncsOf_app.
Qed.

Lemma handleInboundMessage_set_inbound (p : Payload) (q : list Payload)
  (s : ClientEngine) :
  handleInboundMessage p (set_inboundMessages q s)
  = set_inboundMessages q (handleInboundMessage p s).
Proof.
  unfold handleInboundMessage; simpl.
  destruct (maxStepCount (events p) >? stepCount s); reflexivity.
Qed.

Lemma handleAll_set_inbound (ps : list Payload) (q : list Payload) :
  forall s,
    handleAll ps (set_inboundMessages q s)
    = set_inboundMessages q (handleAll ps s).
Proof.
  unfold handleAll.
  induction ps as [|p rest IH]; intros s; simpl; [reflexivity|].
  now rewrite handleInboundMessage_set_inbound, IH.
Qed.

Lemma handleAll_inbound (ps : list Payload) :
  forall s, inboundMessages (handleAll ps s) = inboundMessages s.
Proof.
  unfold handleAll.
  induction ps as [|p rest IH]; intros s; simpl; [reflexivity|].
  now rewrite IH, handleInboundMessage_inbound.
Qed.

Lemma handleAll_syncs (ps : list Payload) :
  forall s,
    syncsOf (gameLog (handleAll ps s))
    = syncsOf (gameLog s)
      ++ map (fun p => (events p, maxStepCount (events p))) ps.
Proof.
  unfold handleAll.
  induction ps as [|p rest IH]; intros s; simpl.
  - now rewrite app_nil_r.
  - now rewrite IH, handleInboundMessage_syncs, <- app_assoc.
Qed.

Lemma handleAll_stepCount_le (ps : list Payload) :
  forall s, stepCount s <= stepCount (handleAll ps s).
Proof.
  unfold handleAll.
  induction ps as [|p rest IH]; intros s; simpl; [lia|].
  specialize (IH (handleInboundMessage p s)).
  rewrite handleInboundMessage_stepCount in IH.
  destruct (Z.gtb_spec (maxStepCount (events p)) (stepCount s)); lia.
Qed.

Lemma pop_spec {A : Type} (l : list A) :
  match pop l with
  | None => l = []
  | Some (rest, x) => l = rest ++ [x]
  end.
Proof.
  unfold pop. destruct (rev l) as [|x r] eqn:Hrev.
  - apply (f_equal (@rev A)) in Hrev. now rewrite rev_involutive in Hrev.
  - apply (f_equal (@rev A)) in Hrev. rewrite rev_involutive in Hrev.
    now simpl in Hrev.
Qed.

Lemma set_inbound_same (s : ClientEngine) :
  inboundMessages s = [] -> set_inboundMessages [] s = s.
Proof. destruct s; simpl; intros ->; reflexivity. Qed.

Lemma set_inbound_twice (q q' : list Payload) (s : ClientEngine) :
  set_inboundMessages q (set_inboundMessages q' s) = set_inboundMessages q s.
Proof. reflexivity. Qed.

(** The loop takes the pending payloads from the back of the queue. *)
Lemma inboundLoop_spec (fuel : nat) :
  forall s,
    (List.length (inboundMessages s) <= fuel)%nat ->
    inboundLoop fuel s
    = handleAll (rev (inboundMessages s)) (set_inboundMessages [] s).
Proof.
  induction fuel as [|fuel IH]; intros s Hlen.
  - destruct (inboundMessages s) eqn:Hq; simpl in Hlen; [|lia].
    simpl. now rewrite set_inbound_same.
  - simpl. pose proof (pop_spec (inboundMessages s)) as Hpop.
    destruct (pop (inboundMessages s)) as [[rest x]|].
    + rewrite Hpop in *. rewrite length_app in Hlen; simpl in Hlen.
      rewrite IH.
      * rewrite handleInboundMessage_inbound; simpl.
        rewrite rev_app_distr; simpl.
        rewrite handleInboundMessage_set_inbound, set_inbound_twice.
        unfold handleAll at 2; simpl.
        now rewrite <- handleInboundMessage_set_inbound.
      * rewrite handleInboundMessage_inbound; simpl. lia.
    + rewrite Hpop; simpl. now rewrite set_inbound_same.
Qed.

Lemma drainInbound_spec (s : ClientEngine) :
  drainInbound s
  = handleAll (rev (inboundMessages s)) (set_inboundMessages [] s).
Proof. unfold drainInbound. now apply inboundLoop_spec. Qed.

Lemma drainInbound_empties (s : ClientEngine) :
  inboundMessages (drainInbound s) = [].
Proof. now rewrite drainInbound_spec, handleAll_inbound. Qed.

Lemma drainInbound_stepCount_le (s : ClientEngine) :
  stepCount s <= stepCount (drainInbound s).
Proof.
  rewrite drainInbound_spec.
  apply (handleAll_stepCount_le _ (set_inboundMessages [] s)).
Qed.

Lemma drainInbound_syncs (s : ClientEngine) :
  syncsOf (gameLog (drainInbound s))
  = syncsOf (gameLog s)
    ++ map (fun p => (events p, maxStepCount (events p)))
         (rev (inboundMessages s)).
Proof. now rewrite drainInbound_spec, handleAll_syncs. Qed.

(** ** The drift check *)

Lemma driftCheckT_cases (T : Z) (s : ClientEngine) :
  match authoritative s with
  | None => driftCheckT T s = s
  | Some a =>
      (stepCount s > a + T
       /\ driftCheckT T s = set_skipOneStep true (game_call TraceWarnAhead s))
      \/ (stepCount s <= a + T /\ a > stepCount s + T
          /\ driftCheckT T s
             = set_doubleStep true (game_call TraceWarnBehind s))
      \/ (stepCount s <= a + T /\ a <= stepCount s + T
          /\ driftCheckT T s = s)
  end.
Proof.
  unfold authoritative, driftCheckT, truthy.
  destruct (serverStep s) as [| |a]; try reflexivity.
  destruct (a =? 0); simpl; [reflexivity|].
  destruct (Z.gtb_spec (stepCount s) (a + T)).
  - left. split; [lia|reflexivity].
  - destruct (Z.gtb_spec a (stepCount s + T)).
    + right; left. repeat split; lia.
    + right; right. repeat split; lia.
Qed.

Lemma driftCheckT_stepCount (T : Z) (s : ClientEngine) :
  stepCount (driftCheckT T s) = stepCount s.
Proof.
  pose proof (driftCheckT_cases T s) as H.
  destruct (authoritative s); [|now rewrite H].
  destruct H as [[_ ->]|[(_ & _ & ->)|(_ & _ & ->)]]; reflexivity.
Qed.

Lemma driftCheckT_gameSteps (T : Z) (s : ClientEngine) :
  gameSteps (gameLog (driftCheckT T s)) = gameSteps (gameLog s).
Proof.
  pose proof (driftCheckT_cases T s) as H.
  destruct (authoritative s); [|now rewrite H].
  destruct H as [[_ ->]|[(_ & _ & ->)|(_ & _ & ->)]]; simpl;
    rewrite ?gameSteps_app; simpl; lia.
Qed.

Lemma driftCheckT_syncs (T : Z) (s : ClientEngine) :
  syncsOf (gameLog (driftCheckT T s)) = syncsOf (gameLog s).
Proof.
  pose proof (driftCheckT_cases T s) as H.
  destruct (authoritative s); [|now rewrite H].
  destruct H as [[_ ->]|[(_ & _ & ->)|(_ & _ & ->)]]; simpl;
    rewrite ?syncsOf_app; simpl; now rewrite ?app_nil_r.
Qed.

Lemma driftCheckT_inbound (T : Z) (s : ClientEngine) :
  inboundMessages (driftCheckT T s) = inboundMessages s.
Proof.
  pose proof (driftCheckT_cases T s) as H.
  destruct (authoritative s); [|now rewrite H].
  destruct H as [[_ ->]|[(_ & _ & ->)|(_ & _ & ->)]]; reflexivity.
Qed.

Lemma handleInboundMessage_flags (p : Payload) (s : ClientEngine) :
  skipOneStep (handleInboundMessage p s) = skipOneStep s
  /\ doubleStep (handleInboundMessage p s) = doubleStep s.
Proof.
  unfold handleInboundMessage; simpl.
  destruct (maxStepCount (events p) >? stepCount s); split; reflexivity.
Qed.

Lemma handleAll_flags (ps : list Payload) :
  forall s,
    skipOneStep (handleAll ps s) = skipOneStep s
    /\ doubleStep (handleAll ps s) = doubleStep s.
Proof.
  unfold handleAll.
  induction ps as [|p rest IH]; intros s; simpl; [split; reflexivity|].
  destruct (IH (handleInboundMessage p s)) as [-> ->].
  apply handleInboundMessage_flags.
Qed.

Lemma drainInbound_flags (s : ClientEngine) :
  skipOneStep (drainInbound s) = skipOneStep s
  /\ doubleStep (drainInbound s) = doubleStep s.
Proof.
  rewrite drainInbound_spec.
  apply (handleAll_flags _ (set_inboundMessages [] s)).
Qed.

Lemma handleAll_gameSteps (ps : list Payload) :
  forall s, gameSteps (gameLog (handleAll ps s)) = gameSteps (gameLog s).
Proof.
  unfold handleAll.
  induction ps as [|p rest IH]; intros s; simpl; [reflexivity|].
  rewrite IH. unfold handleInboundMessage; simpl.
  destruct (maxStepCount (events p) >? stepCount s); simpl;
    rewrite gameSteps_app; simpl; lia.
Qed.

Lemma drainInbound_gameSteps (s : ClientEngine) :
  gameSteps (gameLog (drainInbound s)) = gameSteps (gameLog s).
Proof.
  rewrite drainInbound_spec.
  apply (handleAll_gameSteps _ (set_inboundMessages [] s)).
Qed.

(** ** One call of [step] *)

Lemma step_skipped (hooks : TickHooks) (s : ClientEngine) :
  skipOneStep s = true ->
  step hooks s = set_skipOneStep false (set_traceStep (stepCount s + 1) s).
Proof. unfold step; simpl. now intros ->. Qed.

Lemma step_normal (hooks : TickHooks) (s : ClientEngine) :
  skipOneStep s = false ->
  step hooks s
  = sendInputs (postStep hooks)
      (game_call EmitPostStep
         (gameEngine_step
            (applyDelayedInputs
               (handleOutboundInput (onSocketEmit hooks)
                  (driftCheck (atDriftCheck hooks s)))))).
Proof. unfold step, atDriftCheck; simpl. now intros ->. Qed.

(** What the part of a tick after the drift check leaves alone. *)
Lemma after_drift_quiet (hooks : TickHooks) (s : ClientEngine) :
  let s' :=
    sendInputs (postStep hooks)
      (game_call EmitPostStep
         (gameEngine_step
            (applyDelayedInputs
               (handleOutboundInput (onSocketEmit hooks) s)))) in
  stepCount s' = stepCount s + 1
  /\ skipOneStep s' = skipOneStep s /\ doubleStep s' = doubleStep s
  /\ inboundMessages s' = inboundMessages s
  /\ syncsOf (gameLog s') = syncsOf (gameLog s)
  /\ gameSteps (gameLog s') = S (gameSteps (gameLog s)).
Proof.
  intros s'; subst s'.
  pose proof (handleOutboundInput_quiet (onSocketEmit hooks) s) as H1.
  set (s1 := handleOutboundInput (onSocketEmit hooks) s) in *.
  pose proof (applyDelayedInputs_quiet s1) as H2.
  set (s2 := applyDelayedInputs s1) in *.
  pose proof (sendInputs_quiet (postStep hooks)
                (game_call EmitPostStep (gameEngine_step s2))) as H3.
  unfold quiet in *.
  decompose [and] H1; decompose [and] H2; decompose [and] H3; clear H1 H2 H3.
  simpl in *. autorewrite with logs in *. simpl in *.
  rewrite ?app_nil_r in *.
  repeat split; try congruence; lia.
Qed.

Lemma before_drift_quiet (hooks : TickHooks) (s : ClientEngine) :
  stepCount s <= stepCount (atDriftCheck hooks s)
  /\ skipOneStep (atDriftCheck hooks s) = skipOneStep s
  /\ doubleStep (atDriftCheck hooks s) = doubleStep s
  /\ inboundMessages (atDriftCheck hooks s) = []
  /\ syncsOf (gameLog (atDriftCheck hooks s))
     = syncsOf (gameLog s)
       ++ map (fun p => (events p, maxStepCount (events p)))
            (rev (inboundMessages s))
  /\ gameSteps (gameLog (atDriftCheck hooks s)) = gameSteps (gameLog s).
Proof.
  unfold atDriftCheck.
  pose proof (sendInputs_quiet (preStep hooks)
     (game_call EmitPreStep (set_traceStep (stepCount s + 1) s))) as H1.
  set (s1 := sendInputs (preStep hooks) _) in *.
  pose proof (drainInbound_stepCount_le s1) as Hle.
  destruct (drainInbound_flags s1) as [Hs Hd].
  pose proof (drainInbound_syncs s1) as Hsy.
  pose proof (drainInbound_empties s1) as He.
  pose proof (drainInbound_gameSteps s1) as Hg.
  unfold quiet in H1. decompose [and] H1; clear H1.
  simpl in *. autorewrite with logs in *. simpl in *.
  rewrite ?app_nil_r, ?Nat.add_0_r in *.
  repeat split; try congruence; try lia.
Qed.

Lemma step_stepCount_le (hooks : TickHooks) (s : ClientEngine) :
  stepCount s <= stepCount (step hooks s).
Proof.
  destruct (skipOneStep s) eqn:Hskip.
  - rewrite step_skipped by assumption. simpl. lia.
  - rewrite step_normal by assumption.
    destruct (after_drift_quiet hooks (driftCheck (atDriftCheck hooks s)))
      as (-> & _).
    unfold driftCheck. rewrite driftCheckT_stepCount.
    destruct (before_drift_quiet hooks s) as (Hle & _). lia.
Qed.

Lemma exec_stepCount_le (e : Event) (s : ClientEngine) :
  stepCount s <= stepCount (exec e s).
Proof.
  destruct e as [pid|worldData|u|hooks]; cbn [exec].
  - simpl. lia.
  - simpl. lia.
  - destruct (sendInput_quiet u s) as (_ & -> & _). lia.
  - apply step_stepCount_le.
Qed.

Lemma run_app (es1 es2 : list Event) (s : ClientEngine) :
  run (es1 ++ es2) s = run es2 (run es1 s).
Proof. apply fold_left_app. Qed.

Lemma run_stepCount_le (es : list Event) :
  forall s, stepCount s <= stepCount (run es s).
Proof.
  induction es as [|e es IH]; intros s; [simpl; lia|].
  change (run (e :: es) s) with (run es (exec e s)).
  pose proof (exec_stepCount_le e s). specialize (IH (exec e s)). lia.
Qed.

(** ** C3: the local step count never goes back *)

(** C3.  Handling an inbound payload overwrites the local step count with the
    payload's maximum step count exactly when that maximum exceeds it, and
    otherwise leaves it as it is; so the handler never decreases it, and over
    any sequence of player joins, world updates, inputs and ticks the step
    count after a longer run is at least the step count after any prefix of
    it. *)
Theorem local_step_monotone (p : Payload) (s : ClientEngine)
  (es1 es2 : list Event) :
  let max := maxStepCount (events p) in
  let s' := handleInboundMessage p s in
  ((max > stepCount s /\ stepCount s' = max)
   \/ (max <= stepCount s /\ stepCount s' = stepCount s))
  /\ stepCount s <= stepCount s'
  /\ (forall ps, stepCount s <= stepCount (handleAll ps s))
  /\ stepCount (run es1 s) <= stepCount (run (es1 ++ es2) s).
Proof.
  intros max s'. subst max s'.
  rewrite handleInboundMessage_stepCount.
  repeat split.
  - destruct (Z.gtb_spec (maxStepCount (events p)) (stepCount s));
      [left|right]; split; lia.
  - destruct (Z.gtb_spec (maxStepCount (events p)) (stepCount s)); lia.
  - intros ps. apply handleAll_stepCount_le.
  - rewrite run_app. apply run_stepCount_le.
Qed.

(** ** C4: the two drift flags *)

Lemma raised_true (before after : bool) :
  raised before after = true <-> before = false /\ after = true.
Proof. unfold raised. destruct before, after; simpl; intuition congruence. Qed.

(** C4.  For a threshold [T >= 1] the two drift conditions exclude each
    other, one drift check never raises both flags, and a tick of [step]
    never raises both either; when the check runs without an authoritative
    step (none received, [serverStep] falsy) it changes nothing, and the tick
    leaves both flags as they were. *)
Theorem drift_flags_exclusive (T : Z) (HT : 1 <= T) (hooks : TickHooks)
  (s : ClientEngine) :
  (forall loc auth : Z, ~ (loc > auth + T /\ auth > loc + T))
  /\ raised (skipOneStep s) (skipOneStep (driftCheckT T s))
     && raised (doubleStep s) (doubleStep (driftCheckT T s)) = false
  /\ raised (skipOneStep s) (skipOneStep (step hooks s))
     && raised (doubleStep s) (doubleStep (step hooks s)) = false
  /\ (authoritative s = None -> driftCheckT T s = s)
  /\ (authoritative (atDriftCheck hooks s) = None ->
      skipOneStep (step hooks s) = false
      /\ doubleStep (step hooks s) = doubleStep s).
Proof.
  assert (Hcheck : forall T' c,
    raised (skipOneStep c) (skipOneStep (driftCheckT T' c))
    && raised (doubleStep c) (doubleStep (driftCheckT T' c)) = false).
  { intros T' c. pose proof (driftCheckT_cases T' c) as H.
    destruct (authoritative c).
    - destruct H as [[_ ->]|[(_ & _ & ->)|(_ & _ & ->)]]; simpl;
        unfold raised; destruct (skipOneStep c), (doubleStep c); reflexivity.
    - rewrite H. unfold raised.
      destruct (skipOneStep c), (doubleStep c); reflexivity. }
  split; [intros loc auth; lia|].
  split; [apply Hcheck|].
  split; [|split].
  - destruct (skipOneStep s) eqn:Hskip.
    + rewrite step_skipped by assumption. reflexivity.
    + rewrite step_normal by assumption.
      destruct (after_drift_quiet hooks (driftCheck (atDriftCheck hooks s)))
        as (_ & -> & -> & _).
      destruct (before_drift_quiet hooks s) as (_ & Hs & Hd & _).
      pose proof (Hcheck STEP_DRIFT_THRESHOLD (atDriftCheck hooks s)) as Hc.
      rewrite Hs, Hd, Hskip in Hc. exact Hc.
  - intros Hnone. pose proof (driftCheckT_cases T s) as H.
    now rewrite Hnone in H.
  - intros Hnone.
    destruct (skipOneStep s) eqn:Hskip.
    + rewrite step_skipped by assumption. split; reflexivity.
    + rewrite step_normal by assumption.
      destruct (after_drift_quiet hooks (driftCheck (atDriftCheck hooks s)))
        as (_ & -> & -> & _).
      destruct (before_drift_quiet hooks s) as (_ & Hs & Hd & _).
      pose proof (driftCheckT_cases STEP_DRIFT_THRESHOLD
                    (atDriftCheck hooks s)) as H.
      rewrite Hnone in H. unfold driftCheck. rewrite H.
      split; congruence.
Qed.

(** ** C6 and C10: the authoritative step of a payload *)

(** C6.  When the step counts that the events carry are non-negative (steps
    are), the step count computed for a payload is the maximum over the
    events that carry one, and 0 when none does; an event without a step
    count can be dropped from the payload without changing the result; and
    the handler moves a local step of 5 to 7 on events with step counts 7,
    none, 4, and leaves it at 5 when no event carries a step count. *)
Theorem payload_step_is_max (syncEvents : list SyncEvent.t)
  (Hsteps : Forall (fun n => 0 <= n) (carried syncEvents))
  (s : ClientEngine) :
  maxStepCount syncEvents = spec_maxStepCount syncEvents
  /\ (forall l1 l2 b,
        maxStepCount (l1 ++ SyncEvent.mk b None :: l2) = maxStepCount (l1 ++ l2))
  /\ (forall bodies,
        maxStepCount (map (fun b => SyncEvent.mk b None) bodies) = 0)
  /\ (let evs := [SyncEvent.mk "a" (Some 7); SyncEvent.mk "b" None;
                  SyncEvent.mk "c" (Some 4)] in
      maxStepCount evs = 7
      /\ stepCount (handleInboundMessage {| events := evs |}
                      (set_stepCount 5 s)) = 7)
  /\ (let evs := [SyncEvent.mk "a" None; SyncEvent.mk "b" None] in
      maxStepCount evs = 0
      /\ stepCount (handleInboundMessage {| events := evs |}
                      (set_stepCount 5 s)) = 5).
Proof.
  repeat split.
  - unfold maxStepCount, spec_maxStepCount.
    rewrite fold_maxReducer_carried by (assumption || lia).
    destruct (carried syncEvents) as [|n ns]; [reflexivity|].
    inversion Hsteps; subst. simpl.
    now replace (Z.max 0 n) with n by lia.
  - intros l1 l2 b. unfold maxStepCount.
    now rewrite !fold_maxReducer_app.
  - intros bodies. unfold maxStepCount. generalize 0.
    induction bodies as [|b bs IH]; intros z; simpl; [|rewrite IH];
      reflexivity.
Qed.

(** C10.  An event whose step count is present and 0 is treated like an
    event without one: the reducer skips both, the computed maximum is the
    same with either in the same place of the payload (and the same as
    without the event), and so is the local step count the handler leaves. *)
Theorem zero_step_is_absent (l1 l2 : list SyncEvent.t) (b : string)
  (acc : Z) (s : ClientEngine) :
  let zero := SyncEvent.mk b (Some 0) in
  let absent := SyncEvent.mk b None in
  maxReducer acc zero = acc
  /\ maxReducer acc zero = maxReducer acc absent
  /\ maxStepCount (l1 ++ zero :: l2) = maxStepCount (l1 ++ absent :: l2)
  /\ maxStepCount (l1 ++ zero :: l2) = maxStepCount (l1 ++ l2)
  /\ stepCount (handleInboundMessage {| events := l1 ++ zero :: l2 |} s)
     = stepCount (handleInboundMessage {| events := l1 ++ absent :: l2 |} s).
Proof.
  intros zero absent.
  assert (H : maxStepCount (l1 ++ zero :: l2) = maxStepCount (l1 ++ l2)).
  { unfold maxStepCount. now rewrite !fold_maxReducer_app. }
  assert (H' : maxStepCount (l1 ++ absent :: l2) = maxStepCount (l1 ++ l2)).
  { unfold maxStepCount. now rewrite !fold_maxReducer_app. }
  repeat split; try assumption; try congruence.
  rewrite !handleInboundMessage_stepCount. simpl. now rewrite H, H'.
Qed.

(** ** C8: the strategy selector *)

(** C8.  Configuring ["reflect"] gives the synchronizer that configuring
    ["interpolate"] with the reflect modifier set gives: the interpolate
    selector and no other is activated, the mode kept in the options is
    ["interpolate"] and the modifier is true.  Each recognised mode activates
    exactly one of the three selectors. *)
Theorem reflect_is_interpolate (r : bool) :
  configureSynchronization {| sync := "reflect"; reflect := r |}
  = configureSynchronization {| sync := "interpolate"; reflect := true |}
  /\ configureSynchronization {| sync := "reflect"; reflect := r |}
     = {| syncOptions := {| sync := "interpolate"; reflect := true |};
          extrapolateObjectSelector := false;
          interpolateObjectSelector := true;
          frameSyncSelector := false |}
  /\ Forall
       (fun mode =>
          activeSelectors
            (configureSynchronization {| sync := mode; reflect := r |}) = 1%nat)
       recognizedModes.
Proof.
  repeat split.
  unfold recognizedModes. repeat constructor.
Qed.

(** ** C9: the inbound queue is drained from its newest end *)

Lemma run_worldUpdates (arrivals : list Payload) :
  forall s,
    run (map WorldUpdate arrivals) s
    = set_inboundMessages (inboundMessages s ++ arrivals) s.
Proof.
  induction arrivals as [|p ps IH]; intros s.
  - simpl. rewrite app_nil_r. now destruct s.
  - change (run (map WorldUpdate (p :: ps)) s)
      with (run (map WorldUpdate ps) (worldUpdate p s)).
    rewrite IH. unfold worldUpdate; simpl.
    now rewrite <- app_assoc.
Qed.

(** C9.  The world updates that arrive before a tick queue up behind those
    already pending, in arrival order; the drain of that tick hands them to
    [handleInboundMessage] last-arrived first, so the sync notifications of
    the tick are those of the pending payloads in reverse arrival order, and
    it leaves the queue empty. *)
Theorem inbound_drained_newest_first (hooks : TickHooks) (s : ClientEngine)
  (arrivals : list Payload) (Hskip : skipOneStep s = false) :
  let s1 := run (map WorldUpdate arrivals) s in
  let pending := inboundMessages s ++ arrivals in
  inboundMessages s1 = pending
  /\ drainInbound s1 = handleAll (rev pending) (set_inboundMessages [] s1)
  /\ syncsOf (gameLog (step hooks s1))
     = syncsOf (gameLog s)
       ++ map (fun p => (events p, maxStepCount (events p))) (rev pending)
  /\ inboundMessages (step hooks s1) = [].
Proof.
  intros s1 pending. subst s1 pending.
  rewrite run_worldUpdates.
  set (s1 := set_inboundMessages (inboundMessages s ++ arrivals) s).
  assert (Hq : inboundMessages s1 = inboundMessages s ++ arrivals)
    by reflexivity.
  split; [exact Hq|].
  split; [now rewrite drainInbound_spec, Hq|].
  assert (Hskip1 : skipOneStep s1 = false) by exact Hskip.
  rewrite step_normal by assumption.
  destruct (after_drift_quiet hooks (driftCheck (atDriftCheck hooks s1)))
    as (_ & _ & _ & -> & -> & _).
  unfold driftCheck. rewrite driftCheckT_syncs, driftCheckT_inbound.
  destruct (before_drift_quiet hooks s1) as (_ & _ & _ & -> & -> & _).
  rewrite Hq. split; reflexivity.
Qed.

(** ** Issuing and sending *)

Lemma indexSeq_app (a b : nat) :
  forall v,
    indexSeq v (a + b)
    = indexSeq v a ++ indexSeq (Nat.iter a js_incr v) b.
Proof.
  induction a as [|a IH]; intros v; simpl; [reflexivity|].
  rewrite IH. f_equal. f_equal. f_equal.
  clear. induction a as [|a IH]; simpl; [reflexivity|]. now rewrite IH.
Qed.

Lemma iter_add (a b : nat) (v : JsNum) :
  Nat.iter (a + b) js_incr v = Nat.iter b js_incr (Nat.iter a js_incr v).
Proof.
  rewrite Nat.add_comm. induction b as [|b IH]; simpl; [reflexivity|].
  now rewrite IH.
Qed.

Lemma silent_refl (s : ClientEngine) : silent s s.
Proof. unfold silent; repeat split. Qed.

Lemma silent_trans (s1 s2 s3 : ClientEngine) :
  silent s1 s2 -> silent s2 s3 -> silent s1 s3.
Proof.
  unfold silent. intros H12 H23.
  decompose [and] H12; decompose [and] H23. repeat split; congruence.
Qed.

Lemma issues_refl (s : ClientEngine) : issues [] s s.
Proof. unfold issues; simpl. rewrite !app_nil_r. repeat split. Qed.

Lemma issues_trans (n1 n2 : list InputData.t) (s1 s2 s3 : ClientEngine) :
  issues n1 s1 s2 -> issues n2 s2 s3 -> issues (n1 ++ n2) s1 s3.
Proof.
  unfold issues.
  intros (Hi1 & Hs1 & Ho1 & Hx1 & Hm1) (Hi2 & Hs2 & Ho2 & Hx2 & Hm2).
  rewrite Hi2, Hi1, Hs2, Hs1, Ho2, Ho1, Hm2, Hm1.
  rewrite !map_app, length_app, indexSeq_app, iter_add, <- !app_assoc.
  rewrite Hx1, Hx2, Hm1. repeat split.
Qed.

Lemma silent_issues (s s' : ClientEngine) : silent s s' -> issues [] s s'.
Proof.
  unfold silent, issues. intros (-> & -> & -> & ->). simpl.
  rewrite !app_nil_r. repeat split.
Qed.

Lemma issues_sent (new : list InputData.t) (s s' : ClientEngine) :
  issues new s s' -> sent new s s'.
Proof.
  unfold issues, sent, stream. intros (Hi & Hs & Ho & Hx & Hm).
  rewrite Hi, Hs, Ho, Hm, map_app, map_map, <- app_assoc.
  repeat split; assumption.
Qed.

Lemma sent_trans (n1 n2 : list InputData.t) (s1 s2 s3 : ClientEngine) :
  sent n1 s1 s2 -> sent n2 s2 s3 -> sent (n1 ++ n2) s1 s3.
Proof.
  unfold sent.
  intros (Hi1 & Hs1 & Hx1 & Hm1) (Hi2 & Hs2 & Hx2 & Hm2).
  rewrite Hi2, Hi1, Hs2, Hs1, Hm2, Hm1.
  rewrite !map_app, length_app, indexSeq_app, iter_add, <- !app_assoc.
  rewrite Hx1, Hx2, Hm1. repeat split.
Qed.

Lemma doInputLocal_silent (m : Message.t) (s : ClientEngine) :
  silent s (doInputLocal m s).
Proof.
  unfold silent, doInputLocal. destruct (passive s); simpl;
    rewrite ?issuedOf_app; simpl; rewrite ?app_nil_r; repeat split.
Qed.

Lemma forEach_doInputLocal_silent (delayed : list Message.t) :
  forall s, silent s (forEach_doInputLocal delayed s).
Proof.
  unfold forEach_doInputLocal.
  induction delayed as [|m rest IH]; intros s; simpl.
  - apply silent_refl.
  - eapply silent_trans; [apply doInputLocal_silent | apply IH].
Qed.

Lemma applyDelayedInputs_silent (s : ClientEngine) :
  silent s (applyDelayedInputs s).
Proof.
  unfold applyDelayedInputs.
  destruct (delayedInputs s) as [buf|]; [|apply silent_refl].
  destruct (hd_error buf) as [delayed|].
  - pose proof (forEach_doInputLocal_silent delayed
                  (set_delayedInputs (Some (tl buf)) s)) as H.
    unfold silent in *; simpl in *. exact H.
  - unfold silent; simpl; repeat split.
Qed.

Lemma handleInboundMessage_silent (p : Payload) (s : ClientEngine) :
  silent s (handleInboundMessage p s).
Proof.
  unfold silent, handleInboundMessage; simpl.
  destruct (maxStepCount (events p) >? stepCount s); simpl;
    rewrite issuedOf_app; simpl; rewrite app_nil_r; repeat split.
Qed.

Lemma handleAll_silent (ps : list Payload) :
  forall s, silent s (handleAll ps s).
Proof.
  unfold handleAll.
  induction ps as [|p rest IH]; intros s; simpl.
  - apply silent_refl.
  - eapply silent_trans; [apply handleInboundMessage_silent | apply IH].
Qed.

Lemma drainInbound_silent (s : ClientEngine) : silent s (drainInbound s).
Proof.
  rewrite drainInbound_spec.
  apply (handleAll_silent _ (set_inboundMessages [] s)).
Qed.

Lemma driftCheckT_silent (T : Z) (s : ClientEngine) :
  silent s (driftCheckT T s).
Proof.
  pose proof (driftCheckT_cases T s) as H.
  destruct (authoritative s); [|rewrite H; apply silent_refl].
  destruct H as [[_ ->]|[(_ & _ & ->)|(_ & _ & ->)]]; unfold silent; simpl;
    rewrite ?issuedOf_app; simpl; rewrite ?app_nil_r; repeat split.
Qed.

Lemma sendInput_issues (u : UserInput) (s : ClientEngine) :
  issues [InputData.mk (messageIndex s) (stepCount s)
            (ui_input u) (ui_options u)] s (sendInput u s).
Proof.
  unfold sendInput.
  set (m := Message.mk "move" _).
  set (s1 := game_call (TraceUserInput (Message.data m)) s).
  assert (H : silent s1
                match delayedInputs s1 with
                | Some buf => set_delayedInputs (Some (push_last buf m)) s1
                | None => doInputLocal m s1
                end).
  { destruct (delayedInputs s1);
      [unfold silent; simpl; repeat split | apply doInputLocal_silent]. }
  destruct H as (Hi & Hs & Ho & Hm).
  set (s2 := match delayedInputs s1 with Some _ => _ | None => _ end) in *.
  unfold issues.
  cbn [gameLog socketLog outboundMessages messageIndex set_messageIndex
       set_outboundMessages].
  rewrite Hi, Hs, Ho, Hm.
  subst s1; simpl. rewrite issuedOf_app; simpl.
  repeat split.
Qed.

Lemma sendInputs_issues (us : list UserInput) :
  forall s, exists new,
    List.length new = List.length us /\ issues new s (sendInputs us s).
Proof.
  unfold sendInputs.
  induction us as [|u rest IH]; intros s; simpl.
  - exists []. split; [reflexivity | apply issues_refl].
  - destruct (IH (sendInput u s)) as (new & Hlen & Hiss).
    eexists (_ :: new). split; [simpl; now rewrite Hlen|].
    apply (issues_trans [_] new s (sendInput u s)); [|exact Hiss].
    apply sendInput_issues.
Qed.

Lemma silent_sent (s s' : ClientEngine) : silent s s' -> sent [] s s'.
Proof. intros H. now apply issues_sent, silent_issues. Qed.

Lemma skipn_nth_error {A : Type} (l : list A) :
  forall x m, nth_error l x = Some m -> skipn x l = m :: skipn (S x) l.
Proof.
  induction l as [|a l IH]; intros [|x] m H; simpl in *; try discriminate.
  - now inversion H.
  - now apply IH.
Qed.

Lemma skipn_past {A : Type} (l : list A) (x : nat) :
  nth_error l x = None -> skipn x l = [].
Proof. intros H. apply skipn_all2. now apply nth_error_None. Qed.

Lemma map_wire_move (new : list InputData.t) :
  map wire (map (Message.mk "move") new) = map move new.
Proof. now rewrite map_map. Qed.

(** The loop ends before its fuel does. *)
Lemma outboundLoop_terminates (fuel : nat) :
  forall x listeners s,
    (List.length (outboundMessages s) - x
     + List.length (List.concat listeners) <= fuel)%nat ->
    outboundLoop fuel x listeners s <> None.
Proof.
  induction fuel as [|fuel IH]; intros x listeners s Hfuel; simpl;
    destruct (nth_error (outboundMessages s) x) as [m|] eqn:Hnth;
    try discriminate.
  - assert (x < List.length (outboundMessages s))%nat
      by (apply nth_error_Some; congruence). lia.
  - assert (Hx : (x < List.length (outboundMessages s))%nat)
      by (apply nth_error_Some; congruence).
    apply IH.
    destruct (sendInputs_issues (hd [] listeners)
                (socket_emit (Message.command m) (Message.data m) s))
      as (new & Hlen & _ & _ & Ho & _).
    rewrite Ho, length_app, length_map, Hlen.
    cbn [outboundMessages socket_emit].
    destruct listeners as [|us rest]; cbn [hd tl List.concat] in *;
      rewrite ?length_app in *; simpl List.length in *; lia.
Qed.

(** What the loop has sent when it ends: the queue from position [x] on,
    the inputs issued during the loop included. *)
Lemma outboundLoop_sent (fuel : nat) :
  forall x listeners s s',
    outboundLoop fuel x listeners s = Some s' ->
    exists new,
      issuedOf (gameLog s') = issuedOf (gameLog s) ++ new
      /\ socketLog s'
         = socketLog s ++ map wire (skipn x (outboundMessages s))
           ++ map move new
      /\ map InputData.messageIndex new
         = indexSeq (messageIndex s) (List.length new)
      /\ messageIndex s' = Nat.iter (List.length new) js_incr (messageIndex s).
Proof.
  induction fuel as [|fuel IH]; intros x listeners s s'; simpl;
    destruct (nth_error (outboundMessages s) x) as [m|] eqn:Hnth;
    intros H; inversion H; subst; clear H.
  - exists []. rewrite skipn_past by assumption. simpl.
    rewrite !app_nil_r. repeat split.
  - set (s1 := socket_emit (Message.command m) (Message.data m) s) in *.
    destruct (sendInputs_issues (hd [] listeners) s1)
      as (new1 & _ & Hi1 & Hs1 & Ho1 & Hx1 & Hm1).
    destruct (IH _ _ _ _ H1) as (new2 & Hi2 & Hs2 & Hx2 & Hm2).
    exists (new1 ++ new2).
    assert (Hx : (S x <= List.length (outboundMessages s))%nat)
      by (apply Nat.le_succ_l, nth_error_Some; congruence).
    rewrite Hi2, Hi1, Hs2, Hs1, Ho1, Hm2, Hm1.
    rewrite skipn_app, (skipn_nth_error _ _ _ Hnth).
    replace (S x - List.length (outboundMessages s1))%nat with O
      by (subst s1; cbn [outboundMessages socket_emit]; lia).
    subst s1; simpl.
    rewrite !map_app, map_wire_move, length_app, indexSeq_app, iter_add.
    simpl in Hx1, Hx2, Hm1. rewrite Hx1, Hx2, Hm1.
    rewrite <- !app_assoc. simpl. repeat split.
  - exists []. rewrite skipn_past by assumption. simpl.
    rewrite !app_nil_r. repeat split.
Qed.

(** The flush sends the whole queue and what is issued meanwhile, and
    leaves the queue empty. *)
Lemma handleOutboundInput_sent (listeners : list (list UserInput))
  (s : ClientEngine) :
  exists new,
    sent new s (handleOutboundInput listeners s)
    /\ outboundMessages (handleOutboundInput listeners s) = []
    /\ socketLog (handleOutboundInput listeners s)
       = stream s ++ map move new.
Proof.
  unfold handleOutboundInput.
  destruct (outboundLoop _ 0 listeners s) as [s'|] eqn:Hloop.
  - destruct (outboundLoop_sent _ _ _ _ _ Hloop) as (new & Hi & Hs & Hx & Hm).
    exists new. unfold sent, stream; simpl in *.
    rewrite Hi, Hs, Hm, app_nil_r, <- app_assoc. repeat split; assumption.
  - exfalso. revert Hloop. apply outboundLoop_terminates. lia.
Qed.

Lemma step_sent (hooks : TickHooks) (s : ClientEngine) :
  exists new, sent new s (step hooks s).
Proof.
  destruct (skipOneStep s) eqn:Hskip.
  - rewrite step_skipped by assumption. exists [].
    apply silent_sent. unfold silent; simpl; repeat split.
  - rewrite step_normal by assumption. unfold atDriftCheck, driftCheck.
    set (s0 := game_call EmitPreStep (set_traceStep (stepCount s + 1) s)).
    assert (H0 : sent [] s s0)
      by (apply silent_sent; unfold silent; simpl;
          rewrite issuedOf_app; simpl; rewrite app_nil_r; repeat split).
    destruct (sendInputs_issues (preStep hooks) s0) as (n1 & _ & H1).
    apply issues_sent in H1.
    set (s1 := sendInputs (preStep hooks) s0) in *.
    pose proof (silent_sent _ _ (drainInbound_silent s1)) as H2.
    set (s2 := drainInbound s1) in *.
    pose proof (silent_sent _ _
                  (driftCheckT_silent STEP_DRIFT_THRESHOLD s2)) as H3.
    set (s3 := driftCheckT STEP_DRIFT_THRESHOLD s2) in *.
    destruct (handleOutboundInput_sent (onSocketEmit hooks) s3)
      as (n4 & H4 & _).
    set (s4 := handleOutboundInput (onSocketEmit hooks) s3) in *.
    pose proof (silent_sent _ _ (applyDelayedInputs_silent s4)) as H5.
    set (s5 := applyDelayedInputs s4) in *.
    set (s6 := game_call EmitPostStep (gameEngine_step s5)).
    assert (H6 : sent [] s5 s6)
      by (apply silent_sent; unfold silent; simpl;
          rewrite !issuedOf_app; simpl; rewrite !app_nil_r; repeat split).
    destruct (sendInputs_issues (postStep hooks) s6) as (n7 & _ & H7).
    apply issues_sent in H7.
    eexists.
    eapply sent_trans; [|exact H7].
    eapply sent_trans; [|exact H6].
    eapply sent_trans; [|exact H5].
    eapply sent_trans; [|exact H4].
    eapply sent_trans; [|exact H3].
    eapply sent_trans; [|exact H2].
    eapply sent_trans; [exact H0|exact H1].
Qed.

Lemma run_noJoin_sent (es : list Event) :
  forall s, noJoin es = true -> exists new, sent new s (run es s).
Proof.
  induction es as [|e es IH]; intros s Hno.
  - exists []. apply silent_sent, silent_refl.
  - change (run (e :: es) s) with (run es (exec e s)).
    simpl in Hno. apply andb_prop in Hno as [He Hes].
    destruct (IH (exec e s) Hes) as (n2 & H2).
    assert (H1 : exists n1, sent n1 s (exec e s)).
    { destruct e as [pid|worldData|u|hooks]; cbn [exec].
      - discriminate.
      - exists []. apply silent_sent. unfold silent; simpl; repeat split.
      - eexists. apply issues_sent, sendInput_issues.
      - apply step_sent. }
    destruct H1 as (n1 & H1).
    exists (n1 ++ n2). eapply sent_trans; eassumption.
Qed.




(** ** C2: every issued input is sent once, in issuance order *)


(** ** C7: sequence numbers *)

Lemma round53_exact (z : Z) : Z.abs z < 2 ^ 53 -> round53 z = z.
Proof.
  intros H. unfold round53.
  destruct (Z.ltb_spec (Z.abs z) (2 ^ 53)); [reflexivity|lia].
Qed.

Lemma indexSeq_In (n : nat) :
  forall b v,
    - 2 ^ 53 < b ->
    b + Z.of_nat n <= 2 ^ 53 ->
    In v (indexSeq (JNum b) n) ->
    exists i, 0 <= i < Z.of_nat n /\ v = JNum (b + i).
Proof.
  induction n as [|n IH]; intros b v Hlo Hhi Hin;
    cbn [indexSeq js_incr In] in Hin; [contradiction|].
  destruct Hin as [<-|Hin].
  - exists 0. split; [lia|]. now rewrite Z.add_0_r.
  - destruct n as [|n]; [contradiction|].
    assert (Hb : Z.abs (b + 1) < 2 ^ 53) by lia.
    rewrite (round53_exact _ Hb) in Hin.
    assert (Hlo' : - 2 ^ 53 < b + 1) by lia.
    assert (Hhi' : b + 1 + Z.of_nat (S n) <= 2 ^ 53) by lia.
    destruct (IH _ _ Hlo' Hhi' Hin) as (i & Hi & ->).
    exists (i + 1). split; [lia|]. f_equal. lia.
Qed.

Lemma nth_indexSeq (n : nat) :
  forall b i dflt,
    - 2 ^ 53 < b ->
    b + Z.of_nat n <= 2 ^ 53 ->
    (i < n)%nat ->
    nth i (indexSeq (JNum b) n) dflt = JNum (b + Z.of_nat i).
Proof.
  induction n as [|n IH]; intros b i dflt Hlo Hhi Hi; [lia|].
  destruct i as [|i]; cbn [indexSeq js_incr nth].
  - f_equal. lia.
  - assert (Hb : Z.abs (b + 1) < 2 ^ 53) by lia.
    rewrite (round53_exact _ Hb).
    rewrite IH by lia. f_equal. lia.
Qed.

Lemma joined_issued (p : Z) (gamePassive : bool)
  (delayInputCount : option nat) (es : list Event) :
  noJoin es = true ->
  let c := run es (playerJoined (JNum p)
                     (constructor gamePassive delayInputCount)) in
  map InputData.messageIndex (issuedOf (gameLog c))
  = indexSeq (js_mul (Number (JNum p)) 10000)
      (List.length (issuedOf (gameLog c))).
Proof.
  intros Hno c.
  destruct (run_noJoin_sent es
              (playerJoined (JNum p) (constructor gamePassive delayInputCount))
              Hno) as (new & Hi & _ & Hx & _).
  fold c in Hi.
  cbn [gameLog messageIndex playerId playerJoined constructor
       set_messageIndex set_playerId issuedOf app] in Hi, Hx.
  now rewrite Hi.
Qed.

(** The seed of a player identifier whose namespace lies within the
    integers that doubles count exactly. *)
Lemma seed_exact (p : Z) :
  - 2 ^ 53 < p * 10000 ->
  p * 10000 + 10000 <= 2 ^ 53 ->
  js_mul (Number (JNum p)) 10000 = JNum (p * 10000).
Proof.
  intros Hlo Hhi. unfold js_mul, Number.
  rewrite (round53_exact p) by lia. now rewrite round53_exact by lia.
Qed.

(** C7, as the code has it.  Take player identifiers that are integers [p]
    with [-2^53 < p * 10000] and [p * 10000 + 10000 <= 2^53], the range in
    which the engine's double arithmetic is exact.  A client that joined as
    player [p] numbers its inputs, as long as it has issued at most 10000 of
    them since it joined, [p * 10000], [p * 10000 + 1], ... in issuance
    order.  For two clients with distinct such identifiers, as long as each
    has issued at most 10000 inputs since it joined, no input of one carries
    the sequence number of an input of the other. *)
Theorem sequence_numbers_disjoint_first_10000 (p q : Z)
  (es1 es2 : list Event) (passive1 passive2 : bool)
  (delay1 delay2 : option nat)
  (Hpq : p <> q)
  (Hplo : - 2 ^ 53 < p * 10000) (Hphi : p * 10000 + 10000 <= 2 ^ 53)
  (Hqlo : - 2 ^ 53 < q * 10000) (Hqhi : q * 10000 + 10000 <= 2 ^ 53)
  (Hno1 : noJoin es1 = true) (Hno2 : noJoin es2 = true)
  (Hn1 : Z.of_nat
           (List.length
              (issuedOf (gameLog (run es1 (playerJoined (JNum p)
                                             (constructor passive1 delay1))))))
         <= 10000)
  (Hn2 : Z.of_nat
           (List.length
              (issuedOf (gameLog (run es2 (playerJoined (JNum q)
                                             (constructor passive2 delay2))))))
         <= 10000) :
  let c1 := run es1 (playerJoined (JNum p) (constructor passive1 delay1)) in
  let c2 := run es2 (playerJoined (JNum q) (constructor passive2 delay2)) in
  (forall i x,
     nth_error (issuedOf (gameLog c1)) i = Some x ->
     InputData.messageIndex x = JNum (p * 10000 + Z.of_nat i))
  /\ forall x1 x2,
       In x1 (issuedOf (gameLog c1)) ->
       In x2 (issuedOf (gameLog c2)) ->
       InputData.messageIndex x1 <> InputData.messageIndex x2.
Proof.
  intros c1 c2.
  pose proof (joined_issued p passive1 delay1 es1 Hno1) as H1.
  pose proof (joined_issued q passive2 delay2 es2 Hno2) as H2.
  cbv zeta in H1, H2. fold c1 in H1, Hn1. fold c2 in H2, Hn2.
  rewrite seed_exact in H1, H2 by assumption.
  split.
  - intros i x Hnth.
    assert (Hi : (i < List.length (issuedOf (gameLog c1)))%nat)
      by (apply nth_error_Some; congruence).
    apply (map_nth_error InputData.messageIndex) in Hnth.
    rewrite H1 in Hnth.
    apply nth_error_nth with (d := JNaN) in Hnth.
    rewrite nth_indexSeq in Hnth by lia. now symmetry.
  - intros x1 x2 Hin1 Hin2 Heq.
    apply (in_map InputData.messageIndex) in Hin1, Hin2.
    rewrite H1 in Hin1. rewrite H2 in Hin2.
    apply indexSeq_In in Hin1 as (i & Hi & E1); [|lia|lia].
    apply indexSeq_In in Hin2 as (j & Hj & E2); [|lia|lia].
    rewrite E1, E2 in Heq. inversion Heq. lia.
Qed.

(** ** C5: a client that is ahead skips one tick *)

Lemma step_normal_gameSteps (hooks : TickHooks) (s : ClientEngine) :
  skipOneStep s = false ->
  gameSteps (gameLog (step hooks s)) = S (gameSteps (gameLog s))
  /\ stepCount s < stepCount (step hooks s).
Proof.
  intros Hskip. rewrite step_normal by assumption.
  destruct (after_drift_quiet hooks (driftCheck (atDriftCheck hooks s)))
    as (-> & _ & _ & _ & _ & ->).
  unfold driftCheck. rewrite driftCheckT_gameSteps, driftCheckT_stepCount.
  destruct (before_drift_quiet hooks s) as (Hle & _ & _ & _ & _ & ->).
  split; [reflexivity | lia].
Qed.

(** C5.  When a tick that is not itself skipped finds, at its drift check,
    the local step count above the authoritative step count plus the
    threshold, it raises the skip flag (and still advances the simulation
    itself).  The next call of [step] only records the trace step and clears
    the flag: no simulation step, nothing sent, nothing applied, the step
    count unchanged.  The call after that is an ordinary tick again and
    advances the simulation by one step. *)
Theorem skip_exactly_one_tick (hooks1 hooks2 hooks3 : TickHooks)
  (s : ClientEngine) (a : Z)
  (Hskip : skipOneStep s = false)
  (Hauth : authoritative (atDriftCheck hooks1 s) = Some a)
  (Hahead : stepCount (atDriftCheck hooks1 s) > a + STEP_DRIFT_THRESHOLD) :
  let s1 := step hooks1 s in
  let s2 := step hooks2 s1 in
  let s3 := step hooks3 s2 in
  skipOneStep s1 = true
  /\ gameSteps (gameLog s1) = S (gameSteps (gameLog s))
  /\ s2 = set_skipOneStep false (set_traceStep (stepCount s1 + 1) s1)
  /\ skipOneStep s2 = false
  /\ stepCount s2 = stepCount s1
  /\ gameLog s2 = gameLog s1
  /\ socketLog s2 = socketLog s1
  /\ gameSteps (gameLog s3) = S (gameSteps (gameLog s2))
  /\ stepCount s2 < stepCount s3.
Proof.
  intros s1 s2 s3.
  assert (H1 : skipOneStep s1 = true).
  { subst s1. rewrite step_normal by assumption.
    destruct (after_drift_quiet hooks1 (driftCheck (atDriftCheck hooks1 s)))
      as (_ & -> & _).
    pose proof (driftCheckT_cases STEP_DRIFT_THRESHOLD
                  (atDriftCheck hooks1 s)) as H.
    rewrite Hauth in H. unfold driftCheck.
    destruct H as [[_ ->]|[(Hle & _)|(Hle & _)]]; [reflexivity|lia|lia]. }
  assert (H2 : s2 = set_skipOneStep false
                      (set_traceStep (stepCount s1 + 1) s1))
    by (subst s2; now apply step_skipped).
  assert (H3 : skipOneStep s2 = false) by (rewrite H2; reflexivity).
  repeat split; try assumption; try (rewrite H2; reflexivity).
  - now apply step_normal_gameSteps.
  - now apply step_normal_gameSteps.
  - now apply step_normal_gameSteps.
Qed.

(** ** C1: how long the delay buffer holds an input *)

Lemma forEach_doInputLocal_active (batch : list Message.t) :
  forall s,
    passive s = false ->
    forEach_doInputLocal batch s
    = mkEngine (passive s) (stepCount s) (serverStep s) (traceStep s)
        (playerId s) (messageIndex s) (skipOneStep s) (doubleStep s)
        (inboundMessages s) (outboundMessages s) (delayedInputs s)
        (socketLog s) (gameLog s ++ applyLog (playerId s) batch).
Proof.
  unfold forEach_doInputLocal.
  induction batch as [|m rest IH]; intros s Hp; simpl.
  - rewrite app_nil_r. now destruct s.
  - rewrite IH.
    + unfold doInputLocal. rewrite Hp. simpl.
      rewrite <- !app_assoc. now rewrite Hp.
    + unfold doInputLocal. now rewrite Hp.
Qed.

Lemma outboundLoop_flush_only (fuel : nat) :
  forall x s s',
    outboundLoop fuel x [] s = Some s' ->
    gameLog s' = gameLog s /\ delayedInputs s' = delayedInputs s
    /\ messageIndex s' = messageIndex s.
Proof.
  induction fuel as [|fuel IH]; intros x s s'; simpl;
    destruct (nth_error (outboundMessages s) x) as [m|];
    intros H; inversion H; subst; clear H; try (repeat split; fail).
  destruct (IH _ _ _ H1) as (-> & -> & ->). repeat split.
Qed.

Lemma handleOutboundInput_flush_only (s : ClientEngine) :
  gameLog (handleOutboundInput [] s) = gameLog s
  /\ delayedInputs (handleOutboundInput [] s) = delayedInputs s
  /\ messageIndex (handleOutboundInput [] s) = messageIndex s.
Proof.
  unfold handleOutboundInput.
  destruct (outboundLoop _ 0 [] s) as [s'|] eqn:Hloop; [|repeat split].
  destruct (outboundLoop_flush_only _ _ _ _ Hloop) as (? & ? & ?).
  simpl. repeat split; assumption.
Qed.

(** One quiet tick of a calm engine with a delay buffer. *)
Lemma idle_step (s : ClientEngine) (buf : list (list Message.t)) :
  calm s ->
  delayedInputs s = Some buf ->
  let s' := step noHooks s in
  calm s'
  /\ delayedInputs s' = Some (rotate buf)
  /\ gameLog s' = gameLog s ++ idleLog (playerId s) 1 buf
  /\ playerId s' = playerId s
  /\ stepCount s' = stepCount s + 1
  /\ socketLog s' = stream s.
Proof.
  intros (Hp & Hskip & Hin & Hauth) Hbuf s'. subst s'.
  rewrite step_normal by assumption.
  unfold atDriftCheck, noHooks. cbn [preStep onSocketEmit postStep sendInputs fold_left].
  set (s0 := game_call EmitPreStep (set_traceStep (stepCount s + 1) s)).
  assert (Hd : drainInbound s0 = s0).
  { unfold drainInbound. subst s0.
    cbn [inboundMessages game_call set_traceStep]. now rewrite Hin. }
  rewrite Hd.
  assert (Hdc : driftCheck s0 = s0).
  { pose proof (driftCheckT_cases STEP_DRIFT_THRESHOLD s0) as H.
    replace (authoritative s0) with (authoritative s) in H by reflexivity.
    now rewrite Hauth in H. }
  rewrite Hdc.
  destruct (handleOutboundInput_flush_only s0) as (Hg4 & Hb4 & _).
  pose proof (handleOutboundInput_quiet [] s0) as Hq4.
  destruct (handleOutboundInput_sent [] s0) as (new & (Hi4 & _) & _ & Hs4).
  assert (Hnew : new = []).
  { rewrite Hg4 in Hi4.
    rewrite <- (app_nil_r (issuedOf (gameLog s0))) in Hi4 at 1.
    apply app_inv_head in Hi4. now symmetry. }
  subst new. rewrite app_nil_r in Hs4.
  set (s4 := handleOutboundInput [] s0) in *.
  destruct Hq4 as (Qp & Qsc & Qss & Qpid & Qskip & _ & Qin & _ & _).
  assert (Hp4 : passive s4 = false) by (rewrite Qp; exact Hp).
  assert (Hb : delayedInputs s4 = Some buf) by (rewrite Hb4; exact Hbuf).
  unfold applyDelayedInputs. rewrite Hb.
  assert (Happ :
    match hd_error buf with
    | Some delayed =>
        forEach_doInputLocal delayed (set_delayedInputs (Some (tl buf)) s4)
    | None => set_delayedInputs (Some (tl buf)) s4
    end
    = forEach_doInputLocal (hd [] buf)
        (set_delayedInputs (Some (tl buf)) s4)).
  { destruct buf; reflexivity. }
  rewrite Happ, forEach_doInputLocal_active by exact Hp4.
  unfold calm, authoritative, rotate, gameEngine_step.
  cbn -[applyLog stream].
  rewrite ?Qp, ?Qsc, ?Qss, ?Qpid, ?Qskip, ?Qin, ?Hg4, ?Hs4.
  subst s0. cbn -[applyLog stream].
  fold (authoritative s).
  rewrite <- !app_assoc. repeat split; assumption.
Qed.

Lemma run_idle (k : nat) :
  forall s buf,
    calm s ->
    delayedInputs s = Some buf ->
    let s' := run (idle k) s in
    calm s'
    /\ delayedInputs s' = Some (rotateN k buf)
    /\ gameLog s' = gameLog s ++ idleLog (playerId s) k buf
    /\ playerId s' = playerId s
    /\ stepCount s' = stepCount s + Z.of_nat k.
Proof.
  induction k as [|k IH]; intros s buf Hcalm Hbuf.
  - simpl. rewrite app_nil_r, Z.add_0_r. repeat split; try assumption;
      apply Hcalm.
  - change (run (idle (S k)) s) with (run (idle k) (step noHooks s)).
    destruct (idle_step s buf Hcalm Hbuf) as (Hc1 & Hb1 & Hg1 & Hp1 & Hs1 & _).
    destruct (IH _ _ Hc1 Hb1) as (Hc & Hb & Hg & Hp & Hs).
    cbv zeta. rewrite Hb, Hg, Hp, Hs, Hg1, Hp1, Hs1.
    split; [exact Hc|]. cbn [rotateN idleLog].
    rewrite <- !app_assoc, Nat2Z.inj_succ. repeat split. lia.
Qed.

Lemma rotate_repeat (n : nat) :
  rotate (repeat ([] : list Message.t) (S n)) = repeat [] (S n).
Proof.
  unfold rotate. simpl. induction n as [|n IH]; simpl; [reflexivity|].
  now rewrite IH.
Qed.

Lemma rotateN_repeat (k n : nat) :
  rotateN k (repeat ([] : list Message.t) (S n)) = repeat [] (S n).
Proof.
  induction k as [|k IH]; [reflexivity|].
  cbn [rotateN]. now rewrite rotate_repeat.
Qed.

Lemma push_last_repeat (n : nat) (m : Message.t) :
  push_last (repeat [] (S n)) m = repeat [] n ++ [[m]].
Proof.
  induction n as [|n IH]; [reflexivity|].
  change (repeat [] (S (S n))) with ([] :: repeat ([] : list Message.t) (S n)).
  cbn [push_last]. cbn [repeat] in *. now rewrite IH.
Qed.

Lemma gameSteps_idleLog (pid : JsNum) (k : nat) :
  forall buf,
    Forall (fun b => b = []) buf ->
    gameSteps (idleLog pid k buf) = k
    /\ forall ticks, appliedFrom ticks (idleLog pid k buf) = [].
Proof.
  induction k as [|k IH]; intros buf Hall; [split; reflexivity|].
  assert (Hhd : hd [] buf = []) by (destruct Hall; [reflexivity|assumption]).
  assert (Hrot : Forall (fun b => b = []) (rotate buf)).
  { unfold rotate. apply Forall_app. split; [|now repeat constructor].
    destruct Hall; [constructor|assumption]. }
  destruct (IH _ Hrot) as (Hg & Ha).
  cbn [idleLog]. rewrite Hhd. simpl. rewrite Hg. split; [reflexivity|].
  intros ticks. apply Ha.
Qed.

(** A message that sits behind [n] empty batches is applied during the
    tick after [n] further ticks, and that once. *)
Lemma appliedFrom_idleLog (pid : JsNum) (m : Message.t) (n : nat) :
  forall k ticks rest,
    Forall (fun b => b = []) rest ->
    appliedFrom ticks (idleLog pid k (repeat [] n ++ [m] :: rest))
    = if (n <? k)%nat then [((ticks + n)%nat, Message.data m)] else [].
Proof.
  induction n as [|n IH]; intros k ticks rest Hrest.
  - destruct k as [|k]; [reflexivity|].
    assert (Hrot : Forall (fun b => b = []) (rest ++ [[]]))
      by (apply Forall_app; split; [assumption|now repeat constructor]).
    destruct (gameSteps_idleLog pid k _ Hrot) as (_ & Ha).
    simpl. unfold rotate; simpl. rewrite Ha, Nat.add_0_r. reflexivity.
  - destruct k as [|k]; [reflexivity|].
    assert (Hrot : Forall (fun b => b = []) (rest ++ [[]]))
      by (apply Forall_app; split; [assumption|now repeat constructor]).
    specialize (IH k (S ticks) _ Hrot).
    cbn [idleLog repeat app hd applyLog flat_map appliedFrom].
    unfold rotate. cbn [tl repeat app].
    rewrite <- app_assoc. cbn [app]. rewrite IH.
    change (S n <? S k)%nat with (n <? k)%nat.
    now rewrite Nat.add_succ_r.
Qed.

(** C1, as the code has it.  An engine configured with a delay of
    [D = n + 1] gets a buffer of [D] batches (not [D + 1]).  An input issued
    at tick [T] (after [T] quiet ticks, with step count [T], before the call
    of [step] for tick [T]) goes out with the flush of that call, and is
    applied to the local simulation at tick [T + D - 1]: not during the first
    [D - 1] calls of [step] after it was issued, and during the [D]-th,
    before that call advances the simulation from step [T + D - 1] to
    [T + D].  With [D = 3] and [T = 0] that is tick 2, with [D = 1] the tick
    of issuance itself. *)
Theorem delayed_input_applied_after_D_minus_1 (n T k : nat) (pid : JsNum)
  (u : UserInput) :
  let s0 := playerJoined pid (constructor false (Some (S n))) in
  let sT := run (idle T) s0 in
  let d := InputData.mk (messageIndex sT) (stepCount sT)
             (ui_input u) (ui_options u) in
  let s1 := sendInput u sT in
  delayedInputs s0 = Some (repeat [] (S n))
  /\ stepCount sT = Z.of_nat T
  /\ gameSteps (gameLog sT) = T
  /\ In ("move", d) (socketLog (run (idle 1) s1))
  /\ appliedOf (gameLog (run (idle k) s1))
     = if (n <? k)%nat then [((T + n)%nat, d)] else [].
Proof.
  intros s0 sT d s1.
  assert (Hc0 : calm s0) by (repeat split).
  assert (Hb0 : delayedInputs s0 = Some (repeat [] (S n))) by reflexivity.
  destruct (run_idle T s0 _ Hc0 Hb0) as (HcT & HbT & HgT & HpT & HsT).
  fold sT in HcT, HbT, HgT, HpT, HsT.
  rewrite rotateN_repeat in HbT.
  assert (Hall : Forall (fun b : list Message.t => b = []) (repeat [] (S n))).
  { apply Forall_forall. intros b Hin. now apply repeat_spec in Hin. }
  destruct (gameSteps_idleLog (playerId s0) T _ Hall) as (HgsT & HaT).
  set (m := Message.mk "move" d).
  assert (Hb1 : delayedInputs s1 = Some (repeat [] n ++ [[m]])).
  { subst s1. unfold sendInput. fold d. fold m.
    cbn [delayedInputs set_messageIndex set_outboundMessages game_call].
    rewrite HbT. cbn [delayedInputs set_delayedInputs].
    now rewrite push_last_repeat. }
  assert (Hg1 : gameLog s1 = gameLog sT ++ [TraceUserInput d]).
  { subst s1. unfold sendInput. fold d. fold m.
    cbn [delayedInputs gameLog set_messageIndex set_outboundMessages
         game_call].
    rewrite HbT. reflexivity. }
  assert (Hc1 : calm s1).
  { destruct (sendInput_quiet u sT) as (Qp & _ & Qss & _ & Qskip & _ & Qin & _).
    destruct HcT as (Hp & Hskip & Hin & Hauth).
    unfold calm, authoritative in *. fold s1 in Qp, Qss, Qskip, Qin.
    rewrite Qp, Qss, Qskip, Qin. repeat split; assumption. }
  assert (Hpid1 : playerId s1 = playerId s0).
  { destruct (sendInput_quiet u sT) as (_ & _ & _ & Qpid & _).
    fold s1 in Qpid. now rewrite Qpid. }
  split; [exact Hb0|].
  split; [rewrite HsT; simpl; lia|].
  split; [rewrite HgT; simpl; exact HgsT|].
  split.
  - change (run (idle 1) s1) with (step noHooks s1).
    destruct (idle_step s1 _ Hc1 Hb1) as (_ & _ & _ & _ & _ & ->).
    destruct (issues_sent _ _ _ (sendInput_issues u sT)) as (_ & Hs & _).
    fold d in Hs. fold s1 in Hs. rewrite Hs.
    apply in_or_app. right. now left.
  - destruct (run_idle k s1 _ Hc1 Hb1) as (_ & _ & Hgk & _).
    cbv zeta in Hgk. rewrite Hgk, Hg1, HgT, Hpid1. unfold appliedOf.
    rewrite !appliedFrom_app, !gameSteps_app, HaT, HgsT.
    cbn [gameLog s0 playerJoined constructor set_messageIndex set_playerId
         gameSteps appliedFrom app Nat.add].
    change (repeat [] n ++ [[m]]) with (repeat [] n ++ [m] :: []).
    rewrite appliedFrom_idleLog by constructor.
    now rewrite !Nat.add_0_r.
Qed.

(** ** The delay buffer never runs empty *)

Lemma push_last_nonempty (buf : list (list Message.t)) (m : Message.t) :
  buf <> [] -> push_last buf m <> [].
Proof.
  destruct buf as [|b [|b' rest]]; simpl; [congruence| |]; discriminate.
Qed.

Lemma doInputLocal_buffer (m : Message.t) (s : ClientEngine) :
  delayedInputs (doInputLocal m s) = delayedInputs s.
Proof. unfold doInputLocal. now destruct (passive s). Qed.

Lemma forEach_doInputLocal_buffer (batch : list Message.t) :
  forall s, delayedInputs (forEach_doInputLocal batch s) = delayedInputs s.
Proof.
  unfold forEach_doInputLocal.
  induction batch as [|m rest IH]; intros s; simpl; [reflexivity|].
  now rewrite IH, doInputLocal_buffer.
Qed.

Lemma sendInput_bufferOk (u : UserInput) (s : ClientEngine) :
  bufferOk s -> bufferOk (sendInput u s).
Proof.
  unfold bufferOk, sendInput.
  cbn [delayedInputs set_messageIndex set_outboundMessages game_call].
  destruct (delayedInputs s) as [buf|] eqn:Hbuf; intros Hok.
  - cbn [delayedInputs set_delayedInputs]. intros H. inversion H as [H'].
    revert H'. apply push_last_nonempty. congruence.
  - rewrite doInputLocal_buffer. simpl. rewrite Hbuf. discriminate.
Qed.

Lemma sendInputs_bufferOk (us : list UserInput) :
  forall s, bufferOk s -> bufferOk (sendInputs us s).
Proof.
  unfold sendInputs.
  induction us as [|u rest IH]; intros s Hok; simpl; [exact Hok|].
  now apply IH, sendInput_bufferOk.
Qed.

Lemma applyDelayedInputs_bufferOk (s : ClientEngine) :
  bufferOk (applyDelayedInputs s).
Proof.
  unfold bufferOk, applyDelayedInputs.
  destruct (delayedInputs s) as [buf|] eqn:Hbuf; [|congruence].
  simpl. intros H. inversion H as [H'].
  now apply app_eq_nil in H' as [_ H'].
Qed.

Lemma handleAll_buffer (ps : list Payload) :
  forall s, delayedInputs (handleAll ps s) = delayedInputs s.
Proof.
  unfold handleAll.
  induction ps as [|p rest IH]; intros s; simpl; [reflexivity|].
  rewrite IH. unfold handleInboundMessage; simpl.
  now destruct (maxStepCount (events p) >? stepCount s).
Qed.

Lemma outboundLoop_bufferOk (fuel : nat) :
  forall x listeners s s',
    outboundLoop fuel x listeners s = Some s' -> bufferOk s -> bufferOk s'.
Proof.
  induction fuel as [|fuel IH]; intros x listeners s s'; simpl;
    destruct (nth_error (outboundMessages s) x) as [m|];
    intros H Hok; inversion H; subst; clear H; try assumption.
  eapply IH; [eassumption|]. apply sendInputs_bufferOk. exact Hok.
Qed.

Lemma step_bufferOk (hooks : TickHooks) (s : ClientEngine) :
  bufferOk s -> bufferOk (step hooks s).
Proof.
  intros Hok. destruct (skipOneStep s) eqn:Hskip.
  - rewrite step_skipped by assumption. exact Hok.
  - rewrite step_normal by assumption.
    apply sendInputs_bufferOk.
    pose proof (applyDelayedInputs_bufferOk
                  (handleOutboundInput (onSocketEmit hooks)
                     (driftCheck (atDriftCheck hooks s)))) as H.
    exact H.
Qed.

(** [delayedInputs_never_empty]: in every state an engine can reach from
    its constructor, [sendInput] finds a last batch to push to. *)
Lemma delayedInputs_never_empty (es : list Event) (gamePassive : bool)
  (delayInputCount : option nat) :
  bufferOk (run es (constructor gamePassive delayInputCount)).
Proof.
  assert (H0 : bufferOk (constructor gamePassive delayInputCount)).
  { unfold bufferOk; simpl. destruct delayInputCount as [[|n]|]; discriminate. }
  revert H0. generalize (constructor gamePassive delayInputCount).
  induction es as [|e es IH]; intros s Hok; [exact Hok|].
  change (run (e :: es) s) with (run es (exec e s)). apply IH.
  destruct e as [pid|worldData|u|hooks]; cbn [exec].
  - exact Hok.
  - exact Hok.
  - now apply sendInput_bufferOk.
  - now apply step_bufferOk.
Qed.


(** ** Sequence numbers past the first 10000 *)

Lemma run_sendInputs (us : list UserInput) :
  forall s, run (map SendInput us) s = sendInputs us s.
Proof.
  unfold run, sendInputs.
  induction us as [|u rest IH]; intros s; simpl; [reflexivity|apply IH].
Qed.

(** The [i]-th input a client issues after joining as player [p] carries
    sequence number [p * 10000 + i], as long as the numbers stay within the
    integers that doubles count exactly. *)
Lemma nth_input_index (p : Z) (gamePassive : bool)
  (delayInputCount : option nat) (us : list UserInput) (i : nat) :
  - 2 ^ 53 < p * 10000 ->
  p * 10000 + 10000 <= 2 ^ 53 ->
  p * 10000 + Z.of_nat (List.length us) <= 2 ^ 53 ->
  (i < List.length us)%nat ->
  exists x,
    In x (issuedOf (gameLog
            (run (PlayerJoined (JNum p) :: map SendInput us)
               (constructor gamePassive delayInputCount))))
    /\ InputData.messageIndex x = JNum (p * 10000 + Z.of_nat i).
Proof.
  intros Hlo Hseed Hhi Hi.
  change (run (PlayerJoined (JNum p) :: map SendInput us)
            (constructor gamePassive delayInputCount))
    with (run (map SendInput us)
            (playerJoined (JNum p) (constructor gamePassive delayInputCount))).
  rewrite run_sendInputs.
  destruct (sendInputs_issues us
              (playerJoined (JNum p) (constructor gamePassive delayInputCount)))
    as (new & Hlen & Hiss & _ & _ & Hx & _).
  cbn [gameLog messageIndex playerId playerJoined constructor
       set_messageIndex set_playerId issuedOf app] in Hiss, Hx.
  rewrite seed_exact in Hx by assumption. rewrite Hiss.
  set (dflt := InputData.mk JNaN 0 "none" None).
  exists (nth i new dflt). split.
  - apply nth_In. lia.
  - rewrite <- (map_nth InputData.messageIndex new dflt i).
    rewrite Hx. apply nth_indexSeq; lia.
Qed.

(** * Further properties of the engine *)

(** ** Steps that neither issue nor apply *)

Lemma issuedFrom_app (l1 l2 : list GameEvent) :
  forall ticks,
    issuedFrom ticks (l1 ++ l2)
    = issuedFrom ticks l1 ++ issuedFrom (ticks + gameSteps l1) l2.
Proof.
  induction l1 as [|e l1 IH]; intros ticks; simpl.
  - now rewrite Nat.add_0_r.
  - destruct e; simpl; rewrite ?IH; try reflexivity.
    now rewrite Nat.add_succ_r.
Qed.

Lemma localCalls_app (l1 l2 : list GameEvent) :
  localCalls (l1 ++ l2) = localCalls l1 ++ localCalls l2.
Proof.
  induction l1 as [|e l1 IH]; simpl; [reflexivity|].
  destruct e; simpl; rewrite ?IH; reflexivity.
Qed.

Lemma issuedFrom_issuedOf (log : list GameEvent) :
  forall ticks, map snd (issuedFrom ticks log) = issuedOf log.
Proof.
  induction log as [|e log IH]; intros ticks; simpl; [reflexivity|].
  destruct e; simpl; rewrite ?IH; reflexivity.
Qed.

Lemma neutral_refl (s : ClientEngine) : neutral s s.
Proof. unfold neutral. repeat split. lia. Qed.

Lemma neutral_trans (s1 s2 s3 : ClientEngine) :
  neutral s1 s2 -> neutral s2 s3 -> neutral s1 s3.
Proof.
  unfold neutral.
  intros (Hp1 & Hb1 & Hc1 & Hg1 & Hi1 & Ha1 & Hl1)
         (Hp2 & Hb2 & Hc2 & Hg2 & Hi2 & Ha2 & Hl2).
  repeat split; try congruence. lia.
Qed.

(** A state whose log grew by calls that are no input, no application and
    no simulation step. *)
Lemma neutral_ext (s s' : ClientEngine) (ext : list GameEvent) :
  passive s' = passive s ->
  delayedInputs s' = delayedInputs s ->
  stepCount s <= stepCount s' ->
  gameLog s' = gameLog s ++ ext ->
  gameSteps ext = O ->
  (forall ticks, issuedFrom ticks ext = []) ->
  (forall ticks, appliedFrom ticks ext = []) ->
  localCalls ext = [] ->
  neutral s s'.
Proof.
  intros Hp Hb Hc Hlog Hg Hi Ha Hl. unfold neutral, issuedAtOf, appliedOf.
  rewrite Hlog, gameSteps_app, issuedFrom_app, appliedFrom_app,
    localCalls_app, Hg, Hi, Ha, Hl, !app_nil_r, Nat.add_0_r.
  repeat split; assumption.
Qed.

Lemma neutral_same_log (s s' : ClientEngine) :
  passive s' = passive s ->
  delayedInputs s' = delayedInputs s ->
  stepCount s <= stepCount s' ->
  gameLog s' = gameLog s ->
  neutral s s'.
Proof.
  intros Hp Hb Hc Hlog. apply (neutral_ext _ _ []); try assumption;
    try reflexivity. now rewrite app_nil_r.
Qed.

Lemma handleInboundMessage_neutral (p : Payload) (s : ClientEngine) :
  neutral s (handleInboundMessage p s).
Proof.
  apply (neutral_ext _ _
           [EmitSyncReceived (events p) (maxStepCount (events p))]);
    try reflexivity.
  - unfold handleInboundMessage; simpl.
    now destruct (maxStepCount (events p) >? stepCount s).
  - unfold handleInboundMessage; simpl.
    now destruct (maxStepCount (events p) >? stepCount s).
  - rewrite handleInboundMessage_stepCount.
    destruct (Z.gtb_spec (maxStepCount (events p)) (stepCount s)); lia.
  - unfold handleInboundMessage; simpl.
    now destruct (maxStepCount (events p) >? stepCount s).
Qed.

Lemma handleAll_neutral (ps : list Payload) :
  forall s, neutral s (handleAll ps s).
Proof.
  unfold handleAll.
  induction ps as [|p rest IH]; intros s; simpl.
  - apply neutral_refl.
  - eapply neutral_trans; [apply handleInboundMessage_neutral | apply IH].
Qed.

Lemma drainInbound_neutral (s : ClientEngine) : neutral s (drainInbound s).
Proof.
  rewrite drainInbound_spec.
  apply (neutral_trans s (set_inboundMessages [] s)).
  - apply neutral_same_log; try reflexivity; simpl; lia.
  - apply handleAll_neutral.
Qed.

Lemma driftCheckT_neutral (T : Z) (s : ClientEngine) :
  neutral s (driftCheckT T s).
Proof.
  pose proof (driftCheckT_cases T s) as H.
  destruct (authoritative s); [|rewrite H; apply neutral_refl].
  destruct H as [[_ ->]|[(_ & _ & ->)|(_ & _ & ->)]].
  - apply (neutral_ext _ _ [TraceWarnAhead]); try reflexivity; simpl; lia.
  - apply (neutral_ext _ _ [TraceWarnBehind]); try reflexivity; simpl; lia.
  - apply neutral_refl.
Qed.

(** ** Invariants of a run *)

Section Invariant.

Variable Inv : ClientEngine -> Prop.

Hypothesis Inv_neutral : forall s s', neutral s s' -> Inv s -> Inv s'.
Hypothesis Inv_sendInput : forall u s, Inv s -> Inv (sendInput u s).
Hypothesis Inv_tickCore : forall s, Inv s -> Inv (tickCore s).

Lemma sendInputs_preserves (us : list UserInput) :
  forall s, Inv s -> Inv (sendInputs us s).
Proof.
  unfold sendInputs.
  induction us as [|u rest IH]; intros s H; simpl; [exact H|].
  now apply IH, Inv_sendInput.
Qed.

Lemma outboundLoop_preserves (fuel : nat) :
  forall x listeners s s',
    outboundLoop fuel x listeners s = Some s' -> Inv s -> Inv s'.
Proof.
  induction fuel as [|fuel IH]; intros x listeners s s'; simpl;
    destruct (nth_error (outboundMessages s) x) as [m|];
    intros H HInv; inversion H; subst; clear H; try assumption.
  eapply IH; [eassumption|]. apply sendInputs_preserves.
  revert HInv. apply Inv_neutral.
  apply neutral_same_log; try reflexivity; simpl; lia.
Qed.

Lemma handleOutboundInput_preserves (listeners : list (list UserInput))
  (s : ClientEngine) : Inv s -> Inv (handleOutboundInput listeners s).
Proof.
  unfold handleOutboundInput. intros HInv.
  destruct (outboundLoop _ 0 listeners s) as [s'|] eqn:Hloop; [|exact HInv].
  apply (Inv_neutral s').
  - apply neutral_same_log; try reflexivity; simpl; lia.
  - eapply outboundLoop_preserves; eassumption.
Qed.

Lemma step_preserves (hooks : TickHooks) (s : ClientEngine) :
  Inv s -> Inv (step hooks s).
Proof.
  intros HInv. destruct (skipOneStep s) eqn:Hskip.
  - rewrite step_skipped by assumption. revert HInv. apply Inv_neutral.
    apply neutral_same_log; try reflexivity; simpl; lia.
  - rewrite step_normal by assumption. unfold atDriftCheck, driftCheck.
    apply sendInputs_preserves.
    apply (Inv_neutral (tickCore
             (handleOutboundInput (onSocketEmit hooks)
                (driftCheckT STEP_DRIFT_THRESHOLD
                   (drainInbound
                      (sendInputs (preStep hooks)
                         (game_call EmitPreStep
                            (set_traceStep (stepCount s + 1) s)))))))).
    { apply (neutral_ext _ _ [EmitPostStep]); try reflexivity; simpl; lia. }
    apply Inv_tickCore, handleOutboundInput_preserves.
    apply (Inv_neutral _ _ (driftCheckT_neutral _ _)).
    apply (Inv_neutral _ _ (drainInbound_neutral _)).
    apply sendInputs_preserves.
    revert HInv. apply Inv_neutral.
    apply (neutral_ext _ _ [EmitPreStep]); try reflexivity; simpl; lia.
Qed.

Lemma exec_preserves (e : Event) (s : ClientEngine) :
  Inv s -> Inv (exec e s).
Proof.
  intros HInv. destruct e as [pid|worldData|u|hooks]; cbn [exec].
  - revert HInv. apply Inv_neutral.
    apply neutral_same_log; try reflexivity; simpl; lia.
  - revert HInv. apply Inv_neutral.
    apply neutral_same_log; try reflexivity; simpl; lia.
  - now apply Inv_sendInput.
  - now apply step_preserves.
Qed.

Lemma run_preserves (es : list Event) :
  forall s, Inv s -> Inv (run es s).
Proof.
  induction es as [|e es IH]; intros s HInv; [exact HInv|].
  change (run (e :: es) s) with (run es (exec e s)).
  now apply IH, exec_preserves.
Qed.

End Invariant.

(** ** What [sendInput] and the core of a tick add to the log *)

Lemma sendInput_buffered (u : UserInput) (s : ClientEngine)
  (buf : list (list Message.t)) :
  delayedInputs s = Some buf ->
  let d := InputData.mk (messageIndex s) (stepCount s)
             (ui_input u) (ui_options u) in
  gameLog (sendInput u s) = gameLog s ++ [TraceUserInput d]
  /\ delayedInputs (sendInput u s)
     = Some (push_last buf (Message.mk "move" d)).
Proof.
  intros Hbuf d. unfold sendInput. fold d.
  cbn [delayedInputs gameLog set_messageIndex set_outboundMessages game_call].
  rewrite Hbuf. split; reflexivity.
Qed.

Lemma sendInput_unbuffered (u : UserInput) (s : ClientEngine) :
  delayedInputs s = None ->
  let d := InputData.mk (messageIndex s) (stepCount s)
             (ui_input u) (ui_options u) in
  gameLog (sendInput u s)
  = gameLog s
    ++ TraceUserInput d
       :: (if passive s then []
           else [EmitPreInput d; ProcessInput d (playerId s); EmitPostInput d])
  /\ delayedInputs (sendInput u s) = None.
Proof.
  intros Hbuf d. unfold sendInput. fold d.
  cbn [delayedInputs gameLog set_messageIndex set_outboundMessages game_call].
  rewrite Hbuf. unfold doInputLocal. cbn [passive game_call].
  destruct (passive s); cbn [gameLog delayedInputs game_call];
    rewrite <- ?app_assoc; split; (reflexivity || assumption).
Qed.

Lemma forEach_doInputLocal_passive (batch : list Message.t) :
  forall s, passive s = true -> forEach_doInputLocal batch s = s.
Proof.
  unfold forEach_doInputLocal.
  induction batch as [|m rest IH]; intros s Hp; simpl; [reflexivity|].
  unfold doInputLocal at 2. rewrite Hp. now apply IH.
Qed.

Lemma tickCore_buffered (s : ClientEngine) (buf : list (list Message.t)) :
  delayedInputs s = Some buf ->
  gameLog (tickCore s)
  = gameLog s
    ++ (if passive s then [] else applyLog (playerId s) (hd [] buf))
    ++ [GameStep]
  /\ delayedInputs (tickCore s) = Some (rotate buf)
  /\ passive (tickCore s) = passive s
  /\ stepCount (tickCore s) = stepCount s + 1.
Proof.
  intros Hbuf. unfold tickCore, applyDelayedInputs. rewrite Hbuf.
  assert (Happ :
    match hd_error buf with
    | Some delayed =>
        forEach_doInputLocal delayed (set_delayedInputs (Some (tl buf)) s)
    | None => set_delayedInputs (Some (tl buf)) s
    end
    = forEach_doInputLocal (hd [] buf)
        (set_delayedInputs (Some (tl buf)) s)).
  { destruct buf; reflexivity. }
  rewrite Happ. destruct (passive s) eqn:Hp.
  - rewrite forEach_doInputLocal_passive by exact Hp.
    simpl. rewrite Hp. repeat split.
  - rewrite forEach_doInputLocal_active by exact Hp.
    unfold gameEngine_step, rotate. cbn -[applyLog].
    rewrite <- app_assoc, Hp. repeat split.
Qed.

Lemma tickCore_unbuffered (s : ClientEngine) :
  delayedInputs s = None ->
  gameLog (tickCore s) = gameLog s ++ [GameStep]
  /\ delayedInputs (tickCore s) = None
  /\ passive (tickCore s) = passive s
  /\ stepCount (tickCore s) = stepCount s + 1.
Proof.
  intros Hbuf. unfold tickCore, applyDelayedInputs. rewrite Hbuf.
  simpl. repeat split. exact Hbuf.
Qed.



Lemma push_last_snoc (buf : list (list Message.t)) (b : list Message.t)
  (m : Message.t) :
  push_last (buf ++ [b]) m = buf ++ [b ++ [m]].
Proof.
  induction buf as [|b' rest IH]; [reflexivity|].
  simpl. rewrite IH. destruct (rest ++ [b]) eqn:E; [|reflexivity].
  now destruct rest.
Qed.

Lemma snoc_of_length {A : Type} (l : list A) (n : nat) :
  List.length l = S n ->
  exists front x, l = front ++ [x] /\ List.length front = n.
Proof.
  intros Hlen.
  destruct (exists_last (l := l)) as (front & x & ->).
  { intros ->. discriminate. }
  exists front, x. split; [reflexivity|].
  rewrite length_app in Hlen. simpl in Hlen. lia.
Qed.

Lemma push_last_length (buf : list (list Message.t)) (m : Message.t) :
  List.length (push_last buf m) = List.length buf.
Proof.
  destruct buf as [|b rest]; [reflexivity|].
  destruct (snoc_of_length (b :: rest) (List.length rest) eq_refl)
    as (front & x & -> & _).
  now rewrite push_last_snoc, !length_app.
Qed.

(** ** The delay schedule *)







(** ** Without a delay buffer *)





(** ** A passive engine *)

Lemma spectator_neutral (s s' : ClientEngine) :
  neutral s s' -> spectator s -> spectator s'.
Proof.
  intros (Hp & _ & _ & _ & _ & _ & Hl) (Hpas & Hcalls).
  unfold spectator. rewrite Hp, Hl. split; assumption.
Qed.

Lemma spectator_sendInput (u : UserInput) (s : ClientEngine) :
  spectator s -> spectator (sendInput u s).
Proof.
  intros (Hpas & Hcalls).
  destruct (sendInput_quiet u s) as (Hp & _).
  split; [congruence|].
  destruct (delayedInputs s) as [buf|] eqn:Hbuf.
  - destruct (sendInput_buffered u s buf Hbuf) as (-> & _).
    now rewrite localCalls_app, Hcalls.
  - destruct (sendInput_unbuffered u s Hbuf) as (-> & _).
    rewrite Hpas. now rewrite localCalls_app, Hcalls.
Qed.

Lemma spectator_tickCore (s : ClientEngine) :
  spectator s -> spectator (tickCore s).
Proof.
  intros (Hpas & Hcalls).
  destruct (delayedInputs s) as [buf|] eqn:Hbuf.
  - destruct (tickCore_buffered s buf Hbuf) as (Hlog & _ & Hp & _).
    rewrite Hpas in Hlog. split; [congruence|].
    now rewrite Hlog, localCalls_app, Hcalls.
  - destruct (tickCore_unbuffered s Hbuf) as (Hlog & _ & Hp & _).
    split; [congruence|]. now rewrite Hlog, localCalls_app, Hcalls.
Qed.

(** A passive engine never applies an input locally: whatever happens to
    it, with or without a delay buffer, it makes none of the three calls of
    [doInputLocal] (no pre-input notification, no [processInput], no
    post-input notification). *)
Theorem passive_never_applies (es : list Event)
  (delayInputCount : option nat) :
  let s := run es (constructor true delayInputCount) in
  localCalls (gameLog s) = [] /\ appliedOf (gameLog s) = [].
Proof.
  intros s.
  assert (H : spectator s).
  { apply (run_preserves spectator).
    - apply spectator_neutral.
    - apply spectator_sendInput.
    - apply spectator_tickCore.
    - split; reflexivity. }
  destruct H as (_ & Hcalls).
  split; [exact Hcalls|].
  unfold appliedOf. revert Hcalls. generalize O.
  induction (gameLog s) as [|e log IH]; intros t Hc; [reflexivity|].
  destruct e; simpl in *; try discriminate; now apply IH.
Qed.

(** ** The depth of the delay buffer *)

Lemma depthIs_neutral (depth : option nat) (s s' : ClientEngine) :
  neutral s s' -> depthIs depth s -> depthIs depth s'.
Proof. intros (_ & Hb & _). unfold depthIs. now rewrite Hb. Qed.

Lemma depthIs_sendInput (depth : option nat) (u : UserInput)
  (s : ClientEngine) : depthIs depth s -> depthIs depth (sendInput u s).
Proof.
  unfold depthIs. destruct (delayedInputs s) as [buf|] eqn:Hbuf.
  - destruct (sendInput_buffered u s buf Hbuf) as (_ & ->). simpl.
    now rewrite push_last_length.
  - now destruct (sendInput_unbuffered u s Hbuf) as (_ & ->).
Qed.

Lemma depthIs_tickCore (n : option nat) (s : ClientEngine) :
  let depth := option_map S n in
  depthIs depth s -> depthIs depth (tickCore s).
Proof.
  unfold depthIs. destruct (delayedInputs s) as [buf|] eqn:Hbuf.
  - destruct (tickCore_buffered s buf Hbuf) as (_ & -> & _).
    destruct n as [n|]; simpl; [|discriminate].
    intros H. inversion H as [Hlen]. f_equal.
    destruct buf as [|b rest]; [discriminate|].
    unfold rotate. rewrite length_app. simpl in *. lia.
  - now destruct (tickCore_unbuffered s Hbuf) as (_ & -> & _).
Qed.

(** The delay buffer keeps the depth the constructor gave it: an engine
    built with [delayInputCount = n + 1] has a buffer of [n + 1] batches
    after any run, however many inputs were issued and ticks taken, and an
    engine built without (or with 0) never gets one. *)
Theorem buffer_depth_constant (es : list Event) (gamePassive : bool)
  (delayInputCount : option nat) :
  option_map (@List.length (list Message.t))
    (delayedInputs (run es (constructor gamePassive delayInputCount)))
  = match delayInputCount with
    | Some (S n) => Some (S n)
    | _ => None
    end.
Proof.
  set (n := match delayInputCount with
            | Some (S n) => Some n
            | _ => None
            end).
  assert (H : depthIs (option_map S n)
                (run es (constructor gamePassive delayInputCount))).
  { apply (run_preserves (depthIs (option_map S n))).
    - apply depthIs_neutral.
    - apply depthIs_sendInput.
    - apply depthIs_tickCore.
    - unfold depthIs, n. destruct delayInputCount as [[|k]|]; simpl;
        rewrite ?repeat_length; reflexivity. }
  unfold depthIs in H. rewrite H. unfold n.
  destruct delayInputCount as [[|k]|]; reflexivity.
Qed.

(** ** The step stamps of the inputs *)

Lemma LocallySorted_snoc (l : list Z) (x : Z) :
  LocallySorted Z.le l ->
  Forall (fun z => z <= x) l ->
  LocallySorted Z.le (l ++ [x]).
Proof.
  intros Hs. induction Hs as [|a|a b l Hs IH Hab]; intros Hall; simpl.
  - constructor.
  - inversion Hall; subst. constructor; [constructor|assumption].
  - inversion Hall; subst. constructor; [|assumption]. now apply IH.
Qed.

Lemma stamped_neutral (s s' : ClientEngine) :
  neutral s s' -> stamped s -> stamped s'.
Proof.
  intros (_ & _ & Hc & _ & Hi & _) (stamps & Heq & Hsorted & Hall).
  exists stamps. split; [|split; [exact Hsorted|]].
  - rewrite <- Heq. unfold issuedAtOf in Hi.
    now rewrite <- !(issuedFrom_issuedOf _ O), Hi.
  - eapply Forall_impl; [|exact Hall]. simpl. intros z Hz. lia.
Qed.

Lemma stamped_sendInput (u : UserInput) (s : ClientEngine) :
  stamped s -> stamped (sendInput u s).
Proof.
  intros (stamps & Heq & Hsorted & Hall).
  destruct (sendInput_issues u s) as (Hi & _).
  destruct (sendInput_quiet u s) as (_ & Hc & _).
  exists (stamps ++ [stepCount s]). rewrite Hi, map_app, Heq, Hc.
  split; [reflexivity|]. split.
  - now apply LocallySorted_snoc.
  - apply Forall_app. split; [exact Hall|]. constructor; [lia|constructor].
Qed.

Lemma stamped_tickCore (s : ClientEngine) :
  stamped s -> stamped (tickCore s).
Proof.
  intros (stamps & Heq & Hsorted & Hall).
  destruct (applyDelayedInputs_silent s) as (Hi & _).
  destruct (applyDelayedInputs_quiet s) as (_ & Hc & _).
  exists stamps. unfold tickCore, gameEngine_step. simpl.
  rewrite issuedOf_app, Hi, Hc. simpl. rewrite app_nil_r.
  split; [exact Heq|]. split; [exact Hsorted|].
  eapply Forall_impl; [|exact Hall]. simpl. intros z Hz. lia.
Qed.

(** Every input is stamped with the local step count of the moment it is
    issued; since that never goes back, the stamps of the inputs of a run
    are in non-decreasing order from the first issued to the last, and none
    is ahead of the current local step count, even when world updates move
    the step count forward. *)
Theorem input_stamps_nondecreasing (es : list Event) (gamePassive : bool)
  (delayInputCount : option nat) :
  let s := run es (constructor gamePassive delayInputCount) in
  LocallySorted Z.le (map InputData.step (issuedOf (gameLog s)))
  /\ Forall (fun z => z <= stepCount s)
       (map InputData.step (issuedOf (gameLog s))).
Proof.
  intros s.
  assert (H : stamped s).
  { apply (run_preserves stamped).
    - apply stamped_neutral.
    - apply stamped_sendInput.
    - apply stamped_tickCore.
    - exists []. repeat split; constructor. }
  destruct H as (stamps & <- & Hsorted & Hall). split; assumption.
Qed.

(** ** How far a call of [step] advances the simulation *)

(** A call of [step] performs one simulation step, or none when it is the
    skipped tick; it never performs two, whatever the double-step flag says.
    Two skipped ticks never follow each other: of any two consecutive calls
    at least one advances the simulation. *)
Theorem tick_advances_at_most_once (hooks1 hooks2 : TickHooks)
  (s : ClientEngine) :
  gameSteps (gameLog (step hooks1 s))
  = (gameSteps (gameLog s) + (if skipOneStep s then 0 else 1))%nat
  /\ (gameSteps (gameLog s) + 1
      <= gameSteps (gameLog (step hooks2 (step hooks1 s))))%nat
  /\ (gameSteps (gameLog (step hooks2 (step hooks1 s)))
      <= gameSteps (gameLog s) + 2)%nat.
Proof.
  assert (H : forall h c,
    gameSteps (gameLog (step h c))
    = (gameSteps (gameLog c) + (if skipOneStep c then 0 else 1))%nat).
  { intros h c. destruct (skipOneStep c) eqn:Hskip.
    - rewrite step_skipped by assumption. simpl. lia.
    - destruct (step_normal_gameSteps h c Hskip) as (-> & _). lia. }
  split; [apply H|].
  rewrite (H hooks2), (H hooks1).
  destruct (skipOneStep s) eqn:Hskip.
  - rewrite step_skipped by assumption. simpl. lia.
  - destruct (skipOneStep (step hooks1 s)); lia.
Qed.

(** ** The step count a drain arrives at *)

Lemma fold_maxReducer_max (syncEvents : list SyncEvent.t) :
  forall acc,
    0 <= acc ->
    fold_left maxReducer syncEvents acc
    = Z.max acc (maxStepCount syncEvents).
Proof.
  unfold maxStepCount.
  induction syncEvents as [|el rest IH]; intros acc Hacc; simpl; [lia|].
  pose proof (maxReducer_ge acc el) as H1.
  pose proof (maxReducer_ge 0 el) as H2.
  rewrite (IH (maxReducer acc el)), (IH (maxReducer 0 el)) by lia.
  unfold maxReducer in *.
  destruct (SyncEvent.stepCount el) as [n|]; [|lia].
  destruct (n =? 0); lia.
Qed.

Lemma maxStepCount_app (l1 l2 : list SyncEvent.t) :
  maxStepCount (l1 ++ l2) = Z.max (maxStepCount l1) (maxStepCount l2).
Proof.
  unfold maxStepCount at 1. rewrite fold_left_app.
  apply fold_maxReducer_max, maxStepCount_nonneg.
Qed.

Lemma handleAll_stepCount (ps : list Payload) :
  forall s,
    0 <= stepCount s ->
    stepCount (handleAll ps s)
    = Z.max (stepCount s) (maxStepCount (flat_map events ps)).
Proof.
  unfold handleAll.
  induction ps as [|p rest IH]; intros s Hs; simpl.
  - unfold maxStepCount; simpl. lia.
  - pose proof (maxStepCount_nonneg (events p)) as Hp.
    rewrite IH, handleInboundMessage_stepCount, maxStepCount_app.
    + destruct (Z.gtb_spec (maxStepCount (events p)) (stepCount s)); lia.
    + rewrite handleInboundMessage_stepCount.
      destruct (Z.gtb_spec (maxStepCount (events p)) (stepCount s)); lia.
Qed.

Lemma maxStepCount_flat_map_rev (ps : list Payload) :
  maxStepCount (flat_map events (rev ps))
  = maxStepCount (flat_map events ps).
Proof.
  induction ps as [|p rest IH]; [reflexivity|].
  simpl. rewrite flat_map_app, !maxStepCount_app, IH. simpl.
  rewrite app_nil_r. lia.
Qed.

(** Draining the inbound queue leaves the local step count at the largest of
    the local step count and the step counts of all events of all pending
    payloads.  The order of the drain does not matter for it: handling the
    payloads in arrival order would give the same step count. *)
Theorem drain_takes_overall_maximum (s : ClientEngine)
  (Hstep : 0 <= stepCount s) :
  stepCount (drainInbound s)
  = Z.max (stepCount s)
      (maxStepCount (flat_map events (inboundMessages s)))
  /\ stepCount (drainInbound s)
     = stepCount (handleAll (inboundMessages s) s).
Proof.
  rewrite drainInbound_spec, !handleAll_stepCount by exact Hstep.
  simpl. rewrite maxStepCount_flat_map_rev. split; reflexivity.
Qed.

Lemma fold_maxReducer_attained (syncEvents : list SyncEvent.t) :
  forall acc,
    fold_left maxReducer syncEvents acc = acc
    \/ exists el,
         In el syncEvents
         /\ SyncEvent.stepCount el
            = Some (fold_left maxReducer syncEvents acc).
Proof.
  induction syncEvents as [|el rest IH]; intros acc; simpl; [now left|].
  destruct (IH (maxReducer acc el)) as [Heq|(el' & Hin & Hel)].
  - rewrite Heq. unfold maxReducer.
    destruct (SyncEvent.stepCount el) as [n|] eqn:Hn; [|now left].
    destruct (n =? 0); [now left|].
    destruct (Z.max_spec acc n) as [(_ & ->)|(_ & ->)]; [|now left].
    right. exists el. split; [now left|exact Hn].
  - right. exists el'. split; [now right|exact Hel].
Qed.

(** The step count computed for a payload is never negative, is at least
    every step count an event carries, and is either 0 or the step count of
    one of the events; the step count of two payloads put together is the
    larger of their two step counts. *)
Theorem max_step_count_bounds (syncEvents more : list SyncEvent.t) :
  0 <= maxStepCount syncEvents
  /\ (forall el n,
        In el syncEvents ->
        SyncEvent.stepCount el = Some n ->
        n <= maxStepCount syncEvents)
  /\ (maxStepCount syncEvents = 0
      \/ exists el,
           In el syncEvents
           /\ SyncEvent.stepCount el = Some (maxStepCount syncEvents))
  /\ maxStepCount (syncEvents ++ more)
     = Z.max (maxStepCount syncEvents) (maxStepCount more).
Proof.
  split; [apply maxStepCount_nonneg|].
  split; [|split; [apply fold_maxReducer_attained | apply maxStepCount_app]].
  intros el n Hin Hn.
  apply in_split in Hin as (l1 & l2 & ->).
  rewrite maxStepCount_app.
  change (el :: l2) with ([el] ++ l2). rewrite maxStepCount_app.
  unfold maxStepCount at 2. simpl. unfold maxReducer. rewrite Hn.
  destruct (Z.eqb_spec n 0); lia.
Qed.

(** ** Sequence numbers without a numeric player identifier *)

Lemma indexSeq_NaN (n : nat) : indexSeq JNaN n = repeat JNaN n.
Proof. induction n as [|n IH]; simpl; [reflexivity|]. now rewrite IH. Qed.

(** Until the server has assigned a player identifier the inputs carry no
    usable sequence number: the first input issued before any
    ['playerJoined'] carries [undefined] and all later ones [NaN].  The same
    happens for good after a ['playerJoined'] whose identifier is not a
    number: every input carries [NaN]. *)
Theorem unjoined_inputs_unnumbered (es : list Event) (gamePassive : bool)
  (delayInputCount : option nat) (pid : JsNum)
  (Hno : noJoin es = true) (Hpid : Number pid = JNaN) :
  let s0 := constructor gamePassive delayInputCount in
  map InputData.messageIndex (issuedOf (gameLog (run es s0)))
  = match List.length (issuedOf (gameLog (run es s0))) with
    | O => []
    | S k => JUndefined :: repeat JNaN k
    end
  /\ map InputData.messageIndex
       (issuedOf (gameLog (run es (playerJoined pid s0))))
     = repeat JNaN
         (List.length (issuedOf (gameLog (run es (playerJoined pid s0))))).
Proof.
  intros s0. split.
  - destruct (run_noJoin_sent es s0 Hno) as (new & Hi & _ & Hx & _).
    simpl in Hi, Hx. rewrite Hi, Hx.
    destruct (List.length new); simpl; [reflexivity|].
    now rewrite indexSeq_NaN.
  - destruct (run_noJoin_sent es (playerJoined pid s0) Hno)
      as (new & Hi & _ & Hx & _).
    simpl in Hi, Hx. rewrite Hpid in Hx. simpl in Hx.
    now rewrite Hi, Hx, indexSeq_NaN.
Qed.

(** ** A second ['playerJoined'] *)

(** The engine accepts a ['playerJoined'] at any time and re-seeds the
    sequence counter from it: the first input after a join as player [p]
    carries the seed [Number(p) * 10000] (for an identifier in the exact
    range, [p * 10000]) whether or not that number was used before, so when
    the same identifier is assigned twice in a session the numbering
    restarts and two inputs of the same client carry the same sequence
    number. *)
Theorem rejoin_restarts_numbering (p : Z) (u1 u2 : UserInput)
  (es : list Event) (s : ClientEngine) (Hno : noJoin es = true) :
  let s' := run ([PlayerJoined (JNum p); SendInput u1] ++ es
                 ++ [PlayerJoined (JNum p); SendInput u2]) s in
  exists before x between y,
    issuedOf (gameLog s') = before ++ x :: between ++ [y]
    /\ InputData.messageIndex x = js_mul (Number (JNum p)) 10000
    /\ InputData.messageIndex y = js_mul (Number (JNum p)) 10000.
Proof.
  intros s'. subst s'. rewrite !run_app.
  change (run [PlayerJoined (JNum p); SendInput u1] s)
    with (sendInput u1 (playerJoined (JNum p) s)).
  set (s1 := sendInput u1 (playerJoined (JNum p) s)).
  destruct (sendInput_issues u1 (playerJoined (JNum p) s)) as (Hi1 & _).
  fold s1 in Hi1.
  destruct (run_noJoin_sent es s1 Hno) as (mid & Hi2 & _).
  set (s2 := run es s1) in *.
  change (run [PlayerJoined (JNum p); SendInput u2] s2)
    with (sendInput u2 (playerJoined (JNum p) s2)).
  destruct (sendInput_issues u2 (playerJoined (JNum p) s2)) as (Hi3 & _).
  rewrite Hi3. cbn [gameLog playerJoined set_messageIndex set_playerId].
  rewrite Hi2, Hi1.
  cbn [gameLog playerJoined set_messageIndex set_playerId].
  rewrite <- !app_assoc. cbn [app].
  eexists _, _, mid, _. split; [reflexivity|].
  split; reflexivity.
Qed.

(** ** Which objects are tagged as player controlled *)





(** ** The notifications around a local application *)

Lemma processedOf_app (l1 l2 : list GameEvent) :
  processedOf (l1 ++ l2) = processedOf l1 ++ processedOf l2.
Proof.
  induction l1 as [|e l1 IH]; simpl; [reflexivity|].
  destruct e; simpl; rewrite ?IH; reflexivity.
Qed.

Lemma processedOf_localCalls (log : list GameEvent) :
  processedOf (localCalls log) = processedOf log.
Proof.
  induction log as [|e log IH]; simpl; [reflexivity|].
  destruct e; simpl; rewrite ?IH; reflexivity.
Qed.

Lemma bracketed_app (l1 l2 : list (InputData.t * JsNum)) :
  bracketed (l1 ++ l2) = bracketed l1 ++ bracketed l2.
Proof. apply flat_map_app. Qed.

Lemma applyLog_bracketed (pid : JsNum) (batch : list Message.t) :
  localCalls (applyLog pid batch) = applyLog pid batch
  /\ applyLog pid batch
     = bracketed (processedOf (applyLog pid batch)).
Proof.
  induction batch as [|m rest (IH1 & IH2)]; simpl; [split; reflexivity|].
  rewrite IH1. split; [reflexivity|]. now rewrite <- IH2.
Qed.

Lemma wellBracketed_neutral (s s' : ClientEngine) :
  neutral s s' -> wellBracketed s -> wellBracketed s'.
Proof.
  intros (_ & _ & _ & _ & _ & _ & Hl). unfold wellBracketed.
  rewrite <- (processedOf_localCalls (gameLog s')),
          <- (processedOf_localCalls (gameLog s)), Hl.
  congruence.
Qed.

Lemma wellBracketed_ext (s s' : ClientEngine) (ext : list GameEvent) :
  gameLog s' = gameLog s ++ ext ->
  localCalls ext = bracketed (processedOf ext) ->
  wellBracketed s -> wellBracketed s'.
Proof.
  unfold wellBracketed. intros -> Hext H.
  now rewrite localCalls_app, processedOf_app, bracketed_app, H, Hext.
Qed.

Lemma wellBracketed_sendInput (u : UserInput) (s : ClientEngine) :
  wellBracketed s -> wellBracketed (sendInput u s).
Proof.
  destruct (delayedInputs s) as [buf|] eqn:Hbuf.
  - destruct (sendInput_buffered u s buf Hbuf) as (Hlog & _).
    now apply (wellBracketed_ext _ _ _ Hlog).
  - destruct (sendInput_unbuffered u s Hbuf) as (Hlog & _).
    apply (wellBracketed_ext _ _ _ Hlog). now destruct (passive s).
Qed.

Lemma wellBracketed_tickCore (s : ClientEngine) :
  wellBracketed s -> wellBracketed (tickCore s).
Proof.
  destruct (delayedInputs s) as [buf|] eqn:Hbuf.
  - destruct (tickCore_buffered s buf Hbuf) as (Hlog & _).
    apply (wellBracketed_ext _ _ _ Hlog).
    destruct (passive s); [reflexivity|].
    destruct (applyLog_bracketed (playerId s) (hd [] buf)) as (H1 & H2).
    rewrite localCalls_app, processedOf_app, H1. simpl.
    now rewrite !app_nil_r.
  - destruct (tickCore_unbuffered s Hbuf) as (Hlog & _).
    now apply (wellBracketed_ext _ _ _ Hlog).
Qed.

(** Around every input handed to [processInput] the engine emits the
    pre-input notification just before and the post-input notification just
    after, for that same input; it never emits one of the two notifications
    without the call, neither for immediate nor for delayed inputs. *)
Theorem local_application_bracketed (es : list Event) (gamePassive : bool)
  (delayInputCount : option nat) :
  let s := run es (constructor gamePassive delayInputCount) in
  localCalls (gameLog s) = bracketed (processedOf (gameLog s)).
Proof.
  intros s.
  apply (run_preserves wellBracketed).
  - apply wellBracketed_neutral.
  - apply wellBracketed_sendInput.
  - apply wellBracketed_tickCore.
  - reflexivity.
Qed.

(** ** A client that stays ahead of the server *)

Lemma drainInbound_nothing (s : ClientEngine) :
  inboundMessages s = [] -> drainInbound s = s.
Proof. intros H. unfold drainInbound. now rewrite H. Qed.

Lemma authoritative_serverStep (s s' : ClientEngine) :
  serverStep s' = serverStep s -> authoritative s' = authoritative s.
Proof. unfold authoritative. now intros ->. Qed.

Lemma after_drift_serverStep (hooks : TickHooks) (s : ClientEngine) :
  serverStep
    (sendInputs (postStep hooks)
       (game_call EmitPostStep
          (gameEngine_step
             (applyDelayedInputs
                (handleOutboundInput (onSocketEmit hooks) s)))))
  = serverStep s.
Proof.
  destruct (handleOutboundInput_quiet (onSocketEmit hooks) s)
    as (_ & _ & H1 & _).
  set (s1 := handleOutboundInput (onSocketEmit hooks) s) in *.
  destruct (applyDelayedInputs_quiet s1) as (_ & _ & H2 & _).
  set (s2 := applyDelayedInputs s1) in *.
  destruct (sendInputs_quiet (postStep hooks)
              (game_call EmitPostStep (gameEngine_step s2)))
    as (_ & _ & H3 & _).
  rewrite H3. simpl. now rewrite H2, H1.
Qed.

(** Two calls of [step] of a client that is ahead and receives nothing:
    the first advances and asks for a skip, the second is skipped. *)
Lemma ahead_two_ticks (hooks1 hooks2 : TickHooks) (s : ClientEngine)
  (a : Z) :
  skipOneStep s = false ->
  inboundMessages s = [] ->
  authoritative s = Some a ->
  stepCount s > a + STEP_DRIFT_THRESHOLD ->
  let s2 := step hooks2 (step hooks1 s) in
  skipOneStep s2 = false
  /\ inboundMessages s2 = []
  /\ authoritative s2 = Some a
  /\ stepCount s2 = stepCount s + 1
  /\ gameSteps (gameLog s2) = S (gameSteps (gameLog s)).
Proof.
  intros Hskip Hin Hauth Hahead s2. subst s2.
  set (s0 := sendInputs (preStep hooks1)
               (game_call EmitPreStep (set_traceStep (stepCount s + 1) s))).
  destruct (sendInputs_quiet (preStep hooks1)
              (game_call EmitPreStep (set_traceStep (stepCount s + 1) s)))
    as (_ & Hc0 & Hs0 & _ & Hk0 & _ & Hi0 & _ & Hg0).
  fold s0 in Hc0, Hs0, Hk0, Hi0, Hg0. simpl in Hc0, Hs0, Hk0, Hi0, Hg0.
  rewrite gameSteps_app in Hg0. simpl in Hg0.
  assert (Hat : atDriftCheck hooks1 s = s0).
  { unfold atDriftCheck. fold s0. apply drainInbound_nothing.
    now rewrite Hi0. }
  assert (Hauth0 : authoritative s0 = Some a)
    by (rewrite (authoritative_serverStep s s0) by exact Hs0; exact Hauth).
  pose proof (driftCheckT_cases STEP_DRIFT_THRESHOLD s0) as Hd.
  rewrite Hauth0 in Hd.
  destruct Hd as [(_ & Hd)|[(Hle & _)|(Hle & _)]]; [|lia|lia].
  set (s1 := step hooks1 s).
  assert (H1 : s1 = sendInputs (postStep hooks1)
      (game_call EmitPostStep
         (gameEngine_step
            (applyDelayedInputs
               (handleOutboundInput (onSocketEmit hooks1)
                  (set_skipOneStep true (game_call TraceWarnAhead s0))))))).
  { subst s1. rewrite step_normal by assumption.
    unfold driftCheck. now rewrite Hat, Hd. }
  destruct (after_drift_quiet hooks1
              (set_skipOneStep true (game_call TraceWarnAhead s0)))
    as (Hc1 & Hk1 & _ & Hi1 & _ & Hg1).
  pose proof (after_drift_serverStep hooks1
                (set_skipOneStep true (game_call TraceWarnAhead s0))) as Hs1.
  rewrite <- H1 in Hc1, Hk1, Hi1, Hg1, Hs1.
  simpl in Hc1, Hk1, Hi1, Hg1, Hs1.
  rewrite gameSteps_app in Hg1. simpl in Hg1.
  rewrite (step_skipped hooks2 s1) by exact Hk1. simpl.
  rewrite (authoritative_serverStep s
             (set_skipOneStep false (set_traceStep (stepCount s1 + 1) s1)))
    by (simpl; congruence).
  repeat split; try congruence; lia.
Qed.

(** A client that is ahead of the server by more than the threshold and
    receives no world update advances at half speed: of every two calls of
    [step] one is skipped, so after [2 * k] calls it has performed [k]
    simulation steps and its step count has grown by [k], and it is still
    ahead; skipping alone never brings it back within the threshold. *)
Theorem ahead_client_half_speed (k : nat) :
  forall (hs : list TickHooks) (s : ClientEngine) (a : Z),
    List.length hs = (2 * k)%nat ->
    skipOneStep s = false ->
    inboundMessages s = [] ->
    authoritative s = Some a ->
    stepCount s > a + STEP_DRIFT_THRESHOLD ->
    let s' := run (map Step hs) s in
    stepCount s' = stepCount s + Z.of_nat k
    /\ gameSteps (gameLog s') = (gameSteps (gameLog s) + k)%nat
    /\ skipOneStep s' = false
    /\ stepCount s' > a + STEP_DRIFT_THRESHOLD.
Proof.
  induction k as [|k IH]; intros hs s a Hlen Hskip Hin Hauth Hahead.
  - destruct hs; [|discriminate]. simpl.
    repeat split; try assumption; lia.
  - destruct hs as [|h1 [|h2 rest]]; simpl in Hlen; try lia.
    change (run (map Step (h1 :: h2 :: rest)) s)
      with (run (map Step rest) (step h2 (step h1 s))).
    destruct (ahead_two_ticks h1 h2 s a Hskip Hin Hauth Hahead)
      as (Hskip2 & Hin2 & Hauth2 & Hc2 & Hg2).
    assert (Hlen' : List.length rest = (2 * k)%nat) by lia.
    assert (Hahead2 : stepCount (step h2 (step h1 s))
                      > a + STEP_DRIFT_THRESHOLD) by lia.
    destruct (IH rest _ a Hlen' Hskip2 Hin2 Hauth2 Hahead2)
      as (Hc & Hg & Hk & Ha).
    cbv zeta. rewrite Hc, Hg, Hc2, Hg2.
    repeat split; try assumption; lia.
Qed.

End Engine.

(** * The claims on concrete engines *)

(** C7 as stated fails.  The 10001st input of the client that joined as
    player 1 and the first input of the client that joined as player 2 carry
    the same sequence number, 20000. *)
Lemma sequence_numbers_collide :
  exists x1 x2,
    In x1 (issuedOf (gameLog
             (run latestStep
                (PlayerJoined (JNum 1)
                 :: map SendInput (repeat up (Z.to_nat 10001)))
                (constructor true None))))
    /\ In x2 (issuedOf (gameLog
                (run latestStep [PlayerJoined (JNum 2); SendInput up]
                   (constructor true None))))
    /\ InputData.messageIndex x1 = InputData.messageIndex x2.
Proof.
  destruct (nth_input_index latestStep 1 true None
              (repeat up (Z.to_nat 10001)) (Z.to_nat 10000))
    as (x1 & Hin & Hidx).
  { apply Z.ltb_lt. reflexivity. }
  { apply Z.leb_le. reflexivity. }
  { rewrite repeat_length. apply Z.leb_le. vm_compute. reflexivity. }
  { rewrite repeat_length. lia. }
  exists x1, (InputData.mk (JNum 20000) 0 "up" None).
  split; [exact Hin|]. split; [left; reflexivity|].
  rewrite Hidx, Z2Nat.id by lia. reflexivity.
Qed.

Lemma sequence_numbers_disjoint_witness :
  1 <> 2
  /\ forall x1 x2,
       In x1 (issuedOf (gameLog
                (run latestStep [SendInput up; Step noHooks; SendInput up]
                   (playerJoined (JNum 1) (constructor false (Some 2%nat)))))) ->
       In x2 (issuedOf (gameLog
                (run latestStep [SendInput up]
                   (playerJoined (JNum 2) (constructor false None))))) ->
       InputData.messageIndex x1 <> InputData.messageIndex x2.
Proof.
  split; [lia|].
  apply (sequence_numbers_disjoint_first_10000 latestStep 1 2
           [SendInput up; Step noHooks; SendInput up] [SendInput up]
           false false (Some 2%nat) None).
  - lia.
  - vm_compute. reflexivity.
  - vm_compute. discriminate.
  - vm_compute. reflexivity.
  - vm_compute. discriminate.
  - reflexivity.
  - reflexivity.
  - vm_compute. discriminate.
  - vm_compute. discriminate.
Defined.

Lemma drift_flags_exclusive_witness :
  1 <= STEP_DRIFT_THRESHOLD
  /\ raised (skipOneStep behind) (skipOneStep (step latestStep noHooks behind))
     && raised (doubleStep behind) (doubleStep (step latestStep noHooks behind))
     = false
  /\ authoritative (atDriftCheck latestStep noHooks (constructor false None))
     = None
  /\ skipOneStep (step latestStep noHooks (constructor false None)) = false
  /\ doubleStep (step latestStep noHooks (constructor false None)) = false.
Proof.
  assert (HT : 1 <= STEP_DRIFT_THRESHOLD)
    by (unfold STEP_DRIFT_THRESHOLD; lia).
  split; [exact HT|].
  split.
  - apply (drift_flags_exclusive latestStep STEP_DRIFT_THRESHOLD HT).
  - split; [reflexivity|].
    apply (drift_flags_exclusive latestStep STEP_DRIFT_THRESHOLD HT noHooks
             (constructor false None)).
    reflexivity.
Defined.

Lemma skip_exactly_one_tick_witness :
  let s1 := step latestStep noHooks ahead in
  let s2 := step latestStep noHooks s1 in
  let s3 := step latestStep noHooks s2 in
  skipOneStep s1 = true
  /\ gameSteps (gameLog s1) = S (gameSteps (gameLog ahead))
  /\ s2 = set_skipOneStep false (set_traceStep (stepCount s1 + 1) s1)
  /\ skipOneStep s2 = false
  /\ stepCount s2 = stepCount s1
  /\ gameLog s2 = gameLog s1
  /\ socketLog s2 = socketLog s1
  /\ gameSteps (gameLog s3) = S (gameSteps (gameLog s2))
  /\ stepCount s2 < stepCount s3.
Proof.
  apply (skip_exactly_one_tick latestStep noHooks noHooks noHooks ahead 5).
  - reflexivity.
  - reflexivity.
  - reflexivity.
Defined.

Lemma payload_step_is_max_witness :
  Forall (fun n => 0 <= n) (carried scenario4)
  /\ maxStepCount scenario4 = spec_maxStepCount scenario4.
Proof.
  assert (H : Forall (fun n => 0 <= n) (carried scenario4))
    by (simpl; repeat constructor; lia).
  split; [exact H|].
  apply (payload_step_is_max latestStep scenario4 H ahead).
Defined.

Lemma inbound_drained_newest_first_witness :
  let p1 := {| events := [SyncEvent.mk "first" (Some 3)] |} in
  let p2 := {| events := [SyncEvent.mk "second" (Some 9)] |} in
  syncsOf (gameLog
             (step latestStep noHooks
                (run latestStep [WorldUpdate p1; WorldUpdate p2]
                   (constructor false None))))
  = [(events p2, 9); (events p1, 3)].
Proof.
  intros p1 p2.
  apply (inbound_drained_newest_first latestStep noHooks
           (constructor false None) [p1; p2]).
  reflexivity.
Defined.

(** Scenario 3 on the code: with [delayInputCount = 3] the buffer has three
    batches, and an input issued at tick 0 is sent by the first call of
    [step], is not applied by the first two calls, and is applied by the
    third, at tick 2. *)
Example scenario3_applied_at_tick_2 :
  let s1 := sendInput I1 (constructor false (Some 3%nat)) in
  let d := InputData.mk JUndefined 0 "I1" None in
  delayedInputs (constructor false (Some 3%nat)) = Some [[]; []; []]
  /\ socketLog (run latestStep (idle 1) s1) = [("move", d)]
  /\ appliedOf (gameLog (run latestStep (idle 2) s1)) = []
  /\ appliedOf (gameLog (run latestStep (idle 3) s1)) = [(2%nat, d)]
  /\ appliedOf (gameLog (run latestStep (idle 4) s1)) = [(2%nat, d)].
Proof. vm_compute. repeat split. Qed.

(** The same for an input issued by a ['client.preStep'] listener during
    the call of [step] for tick 0, the place [sendInput] is documented to be
    called from: sent by that call, applied by the third call, at tick 2.
    An input issued by a ['client.postStep'] listener of the call for tick 0
    is issued with step count 1 and applied at tick 3, again [D - 1] steps
    later. *)
Example scenario3_from_hooks :
  let pre := {| preStep := [I1]; onSocketEmit := []; postStep := [] |} in
  let post := {| preStep := []; onSocketEmit := []; postStep := [I1] |} in
  let s0 := constructor false (Some 3%nat) in
  socketLog (run latestStep [Step pre] s0)
  = [("move", InputData.mk JUndefined 0 "I1" None)]
  /\ appliedOf (gameLog (run latestStep [Step pre; Step noHooks] s0)) = []
  /\ appliedOf (gameLog (run latestStep (Step pre :: idle 2) s0))
     = [(2%nat, InputData.mk JUndefined 0 "I1" None)]
  /\ appliedOf (gameLog (run latestStep (Step post :: idle 2) s0)) = []
  /\ appliedOf (gameLog (run latestStep (Step post :: idle 3) s0))
     = [(3%nat, InputData.mk JUndefined 1 "I1" None)].
Proof. vm_compute. repeat split. Qed.

(** With [delayInputCount = 1] an input is applied by the next call of
    [step], before that call advances the simulation: at the tick at which
    it was issued, as without a delay buffer. *)
Example delay_one_applies_in_the_same_tick :
  appliedOf (gameLog (run latestStep [SendInput I1; Step noHooks]
                        (constructor false (Some 1%nat))))
  = appliedOf (gameLog (run latestStep [SendInput I1; Step noHooks]
                          (constructor false None))).
Proof. vm_compute. reflexivity. Qed.

(** The double-step flag is never cleared by the engine: a client that was
    behind and is later ahead has both flags set, raised in different
    ticks. *)
Example both_flags_set_across_ticks :
  let s := run latestStep (idle 32) behind in
  skipOneStep s = true /\ doubleStep s = true.
Proof. vm_compute. split; reflexivity. Qed.

(** A server step of 0 counts as "none received": no drift correction,
    however far ahead the client is. *)
Example zero_server_step_is_none :
  let s := set_serverStep (JNum 0) (set_stepCount 25 (constructor false None)) in
  authoritative s = None /\ skipOneStep (step latestStep noHooks s) = false.
Proof. vm_compute. split; reflexivity. Qed.

(** A negative step count is truthy and loses against the seed 0 of the
    reduction. *)
Example negative_step_count :
  maxStepCount [SyncEvent.mk "a" (Some (-3))] = 0.
Proof. reflexivity. Qed.

(** * The further properties on concrete engines *)

Lemma drain_takes_overall_maximum_witness :
  let s := run latestStep
             [WorldUpdate {| events := [SyncEvent.mk "first" (Some 9)] |};
              WorldUpdate {| events := scenario4 |}]
             (constructor false None) in
  0 <= stepCount s
  /\ stepCount (drainInbound latestStep s) = 9
  /\ stepCount (handleAll latestStep (inboundMessages s) s) = 9.
Proof.
  intros s.
  assert (H : 0 <= stepCount s) by (simpl; lia).
  split; [exact H|].
  destruct (drain_takes_overall_maximum latestStep s H) as (H1 & H2).
  split; [exact H1 | rewrite <- H2; exact H1].
Defined.

Lemma unjoined_inputs_unnumbered_witness :
  let es := [SendInput up; Step noHooks; SendInput up; SendInput I1] in
  noJoin es = true
  /\ Number JUndefined = JNaN
  /\ map InputData.messageIndex
       (issuedOf (gameLog (run latestStep es (constructor false None))))
     = [JUndefined; JNaN; JNaN]
  /\ map InputData.messageIndex
       (issuedOf (gameLog (run latestStep es
                             (playerJoined JUndefined
                                (constructor false None)))))
     = [JNaN; JNaN; JNaN].
Proof.
  intros es.
  split; [reflexivity|]. split; [reflexivity|].
  apply (unjoined_inputs_unnumbered latestStep es false None JUndefined);
    reflexivity.
Defined.

Lemma rejoin_restarts_numbering_witness :
  noJoin [Step noHooks; SendInput I1] = true
  /\ exists before x between y,
       issuedOf (gameLog
         (run latestStep
            ([PlayerJoined (JNum 7); SendInput up]
             ++ [Step noHooks; SendInput I1]
             ++ [PlayerJoined (JNum 7); SendInput up])
            (constructor false None)))
       = before ++ x :: between ++ [y]
       /\ InputData.messageIndex x = JNum (7 * 10000)
       /\ InputData.messageIndex y = JNum (7 * 10000).
Proof.
  split; [reflexivity|].
  apply (rejoin_restarts_numbering latestStep 7 up up
           [Step noHooks; SendInput I1] (constructor false None)).
  reflexivity.
Defined.


Lemma ahead_client_half_speed_witness :
  let s' := run latestStep (map Step [noHooks; noHooks; noHooks; noHooks])
              ahead in
  stepCount s' = stepCount ahead + Z.of_nat 2
  /\ gameSteps (gameLog s') = (gameSteps (gameLog ahead) + 2)%nat
  /\ skipOneStep s' = false
  /\ stepCount s' > 5 + STEP_DRIFT_THRESHOLD.
Proof.
  apply (ahead_client_half_speed latestStep 2
           [noHooks; noHooks; noHooks; noHooks] ahead 5); reflexivity.
Defined.

(** Outside the exact range the namespaces are not even distinct at the
    start: the player identifiers 8000000000000001 and 8000000000000002,
    both exact doubles, have the same seed, and the first inputs of the two
    clients carry the same sequence number. *)
Example large_identifiers_share_a_seed :
  js_mul (Number (JNum 8000000000000001)) 10000 = JNum 80000000000000016384
  /\ js_mul (Number (JNum 8000000000000002)) 10000 = JNum 80000000000000016384
  /\ map InputData.messageIndex
       (issuedOf (gameLog (run latestStep
                             [PlayerJoined (JNum 8000000000000001);
                              SendInput up]
                             (constructor true None))))
     = map InputData.messageIndex
         (issuedOf (gameLog (run latestStep
                               [PlayerJoined (JNum 8000000000000002);
                                SendInput up]
                               (constructor true None)))).
Proof. vm_compute. repeat split. Qed.

(** Above 2^53 the counter stops counting: for the player identifier
    900719925475 every input carries the seed. *)
Example counter_stops_above_2_53 :
  js_incr (JNum 9007199254750000) = JNum 9007199254750000
  /\ map InputData.messageIndex
       (issuedOf (gameLog (run latestStep
                             [PlayerJoined (JNum 900719925475);
                              SendInput up; SendInput up; SendInput up]
                             (constructor true None))))
     = [JNum 9007199254750000; JNum 9007199254750000;
        JNum 9007199254750000].
Proof. vm_compute. repeat split. Qed.
